(** * The shifted-beta-geometric model of [shifted_beta_geometric/sbg.py]

    A shallow embedding of the numerical core of [sbg.py] and the
    properties its specification states about it.

    Numbers.  The Python code works on numbers with [+], [-], [*], [/] and
    [math.log].  They are modelled as real numbers: [R] with its exact
    field operations and [ln].  Rounding of binary floating point is not
    part of this model.  Integers (loop counters, list indices, lengths,
    horizons) are [Z] and enter arithmetic through [IZR].

    Where rounding decides a property, the arithmetic core is also given
    on binary64 numbers, the type of Python's [float], in module
    [Binary64]; no logarithm is available there.

    Exceptions.  Every operation that can raise in Python returns a
    [result]: [/] raises [ZeroDivisionError] on a zero divisor,
    [math.log] raises [ValueError] outside the positive reals, list
    indexing raises [IndexError] out of range (after Python's wrap-around
    of negative indices), and a recursion deeper than the interpreter
    allows raises [RecursionError]. *)

From Stdlib Require Import Reals Lra Lia ZArith List Bool.
From Stdlib Require String.
From Stdlib Require PrimFloat Uint63.
Import ListNotations.
Import String.StringSyntax.
Delimit Scope string_scope with string.

Open Scope R_scope.

(** ** Exceptions and the error monad *)

Inductive exn : Type :=
| ZeroDivisionError
| ValueError
| IndexError
| RecursionError.

Inductive result (A : Type) : Type :=
| Ok (a : A)
| Raise (e : exn).

Arguments Ok {A} a.
Arguments Raise {A} e.

Definition bind {A B : Type} (m : result A) (k : A -> result B) : result B :=
  match m with
  | Ok a => k a
  | Raise e => Raise e
  end.

Notation "x <- m ;; k" := (bind m (fun x => k))
  (at level 61, m at next level, right associativity).

(** [raises m]: the computation ends in an exception. *)
Definition raises {A : Type} (m : result A) : Prop :=
  exists e, m = Raise e.

(** A [for] loop over a list threading the loop state. *)
Fixpoint foldM {A S : Type} (body : A -> S -> result S) (l : list A) (s : S)
  : result S :=
  match l with
  | [] => Ok s
  | a :: l' => s' <- body a s ;; foldM body l' s'
  end.

(** A list comprehension [[f a for a in l]]. *)
Fixpoint mapM {A B : Type} (f : A -> result B) (l : list A) : result (list B) :=
  match l with
  | [] => Ok []
  | a :: l' => b <- f a ;; bs <- mapM f l' ;; Ok (b :: bs)
  end.

(** ** Python built-ins *)

(** [len(l)] *)
Definition len {A : Type} (l : list A) : Z := Z.of_nat (length l).

(** [l[i]], negative indices counted from the end. *)
Definition getitem {A : Type} (l : list A) (i : Z) : result A :=
  let j := if (i <? 0)%Z then (i + len l)%Z else i in
  if (j <? 0)%Z then Raise IndexError
  else match nth_error l (Z.to_nat j) with
       | Some a => Ok a
       | None => Raise IndexError
       end.

(** [count] consecutive integers from [lo]. *)
Fixpoint iota (lo : Z) (count : nat) : list Z :=
  match count with
  | O => []
  | S c => lo :: iota (lo + 1) c
  end.

(** [range(lo, hi)]: empty when [hi <= lo]. *)
Definition range (lo hi : Z) : list Z := iota lo (Z.to_nat (hi - lo)).

(** [enumerate(l)] *)
Definition enumerate {A : Type} (l : list A) : list (Z * A) :=
  combine (range 0 (len l)) l.

(** [sum(l)]: starts from 0 and adds from the left. *)
Definition sum (l : list R) : R := fold_left Rplus l 0.

(** [a / b] *)
Definition truediv (a b : R) : result R :=
  if Req_dec_T b 0 then Raise ZeroDivisionError else Ok (a / b).

(** [math.log(x)] *)
Definition log (x : R) : result R :=
  if Rlt_dec 0 x then Ok (ln x) else Raise ValueError.

(** [a <= b] as a Python condition. *)
Definition Rleb (a b : R) : bool := if Rle_dec a b then true else false.

(** ** The functions of [sbg.py] *)

(** [generate_probabilities(alpha, beta, x)] *)
Definition generate_probabilities (alpha beta : R) (x : Z) : result (list R) :=
  p0 <- truediv alpha (alpha + beta) ;;
  foldM (fun t p =>
           c <- truediv (beta + IZR t - 1) (alpha + beta + IZR t) ;;
           prev <- getitem p (t - 1) ;;
           Ok (p ++ [c * prev]))
        (range 1 x) [p0].

(** [probability(alpha, beta, t)].  [depth] is the number of nested calls
    the interpreter still allows. *)
Fixpoint probability (depth : nat) (alpha beta : R) (t : Z) : result R :=
  match depth with
  | O => Raise RecursionError
  | S d =>
      if (t =? 0)%Z then truediv alpha (alpha + beta)
      else
        c <- truediv (beta + IZR t - 1) (alpha + beta + IZR t) ;;
        prev <- probability d alpha beta (t - 1) ;;
        Ok (c * prev)
  end.

(** [survivor(probabilities, t)] *)
Definition survivor (probabilities : list R) (t : Z) : result R :=
  p0 <- getitem probabilities 0 ;;
  foldM (fun x s => px <- getitem probabilities x ;; Ok (s - px))
        (range 1 (t + 1)) (1 - p0).

(** [survivor_rates(data)] *)
Definition survivor_rates (data : list R) : result (list R) :=
  foldM (fun '(i, _) s =>
           if (i =? 0)%Z then
             d0 <- getitem data 0 ;;
             Ok (s ++ [1 - d0])
           else
             dp <- getitem data (i - 1) ;;
             di <- getitem data i ;;
             Ok (s ++ [dp - di]))
        (enumerate data) [].

(** [log_likelihood(alpha, beta, data, survivors=None)] *)
Definition log_likelihood (alpha beta : R) (data : list R)
    (survivors : option (list R)) : result R :=
  if Rleb alpha 0 || Rleb beta 0 then Ok (-1000)
  else
    survivors <- match survivors with
                 | None => survivor_rates data
                 | Some s => Ok s
                 end ;;
    probabilities <- generate_probabilities alpha beta (len data) ;;
    final_survivor_likelihood <- survivor probabilities (len data - 1) ;;
    terms <- mapM (fun '(t, s) =>
                     pt <- getitem probabilities t ;;
                     l <- log pt ;;
                     Ok (s * l))
                  (enumerate survivors) ;;
    last <- getitem data (-1) ;;
    l <- log final_survivor_likelihood ;;
    Ok (sum terms + last * l).

(** The body of the loop over cohorts in [log_likelihood_multi_cohort]:
    the two [total += ...] statements for cohort number [i]. *)
Definition cohort_body (probabilities : list R) (cohorts : Z)
    (entry : Z * list R) (total : R) : result R :=
  let '(i, cohort) := entry in
  terms <- mapM (fun j =>
                   cj <- getitem cohort j ;;
                   cj1 <- getitem cohort (j + 1) ;;
                   pj <- getitem probabilities j ;;
                   l <- log pj ;;
                   Ok ((cj - cj1) * l))
                (range 0 (len cohort - 1)) ;;
  let total := total + sum terms in
  last <- getitem cohort (-1) ;;
  s <- survivor probabilities (cohorts - i - 1) ;;
  l <- log s ;;
  Ok (total + last * l).

(** [log_likelihood_multi_cohort(alpha, beta, data)] *)
Definition log_likelihood_multi_cohort (alpha beta : R) (data : list (list R))
  : result R :=
  if Rleb alpha 0 || Rleb beta 0 then Ok (-1000)
  else
    first <- getitem data 0 ;;
    probabilities <- generate_probabilities alpha beta (len first) ;;
    let cohorts := len data in
    foldM (cohort_body probabilities cohorts) (enumerate data) 0.

(** [predicted_retention(alpha, beta, t)] *)
Definition predicted_retention (alpha beta t : R) : result R :=
  truediv (beta + t) (alpha + beta + t).

(** [predicted_survival(alpha, beta, x)] *)
Definition predicted_survival (alpha beta : R) (x : Z) : result (list R) :=
  r0 <- predicted_retention alpha beta 0 ;;
  foldM (fun t s =>
           r <- predicted_retention alpha beta (IZR t) ;;
           prev <- getitem s (t - 1) ;;
           Ok (s ++ [r * prev]))
        (range 1 x) [r0].

(** [derl(alpha, beta, d, n)].  [scipy.special.hyp2f1] is not part of the
    repository: the evaluator of the Gauss hypergeometric function is a
    parameter of the model. *)
Section Derl.

Variable hyp2f1 : R -> R -> R -> R -> result R.

Definition derl (alpha beta d n : R) : result R :=
  r <- predicted_retention alpha beta n ;;
  z <- truediv 1 (1 + d) ;;
  h <- hyp2f1 1 (beta + n + 1) (alpha + beta + n + 1) z ;;
  Ok (r * h).

End Derl.

(** ** Parameter estimation

    [scipy.optimize.minimize] is not part of the repository: the optimizer
    is a parameter of the model.  It receives the objective, the initial
    guess, the method and the [xtol] option, and either raises or returns
    a result object. *)

(** The result object of [minimize], with the fields the code reads. *)
Module OptimizeResult.

Record t : Type := { x : R * R; status : Z; message : String.string }.

End OptimizeResult.

(** What a call of [fit] or [fit_multi_cohort] can raise: an exception of
    the code below it, or [Exception(res.message)]. *)
Inductive raised : Type :=
| Builtin (e : exn)
| Exception (message : String.string).

(** The objective of [maximize]:
    [lambda x: -log_likelihood(x[0], x[1], data, survivors)] *)
Definition maximize_func (data survivors : list R) (x : R * R) : result R :=
  l <- log_likelihood (fst x) (snd x) data (Some survivors) ;;
  Ok (- l).

(** The objective of [maximize_multi_cohort]:
    [lambda x: -log_likelihood_multi_cohort(x[0], x[1], data)] *)
Definition maximize_multi_cohort_func (data : list (list R)) (x : R * R)
  : result R :=
  l <- log_likelihood_multi_cohort (fst x) (snd x) data ;;
  Ok (- l).

Section Optimizer.

Variable minimize :
  (R * R -> result R) -> R * R -> String.string -> R ->
  result OptimizeResult.t.

(** [maximize(data)] *)
Definition maximize (data : list R) : result OptimizeResult.t :=
  survivors <- survivor_rates data ;;
  minimize (maximize_func data survivors) (100, 100)
           "nelder-mead"%string 1e-8.

(** [maximize_multi_cohort(data)] *)
Definition maximize_multi_cohort (data : list (list R))
  : result OptimizeResult.t :=
  minimize (maximize_multi_cohort_func data) (1, 1)
           "nelder-mead"%string 1e-8.

(** [fit(data)] *)
Definition fit (data : list R) : R * R + raised :=
  match maximize data with
  | Raise e => inr (Builtin e)
  | Ok res =>
      if negb (OptimizeResult.status res =? 0)%Z
      then inr (Exception (OptimizeResult.message res))
      else inl (OptimizeResult.x res)
  end.

(** [fit_multi_cohort(data)] *)
Definition fit_multi_cohort (data : list (list R)) : R * R + raised :=
  match maximize_multi_cohort data with
  | Raise e => inr (Builtin e)
  | Ok res =>
      if negb (OptimizeResult.status res =? 0)%Z
      then inr (Exception (OptimizeResult.message res))
      else inl (OptimizeResult.x res)
  end.

End Optimizer.

(** ** The model's quantities as the specification writes them *)

(** P(T=t): the churn probability of period [t], by the specification's
    recurrence. *)
Fixpoint churn (alpha beta : R) (t : nat) : R :=
  match t with
  | O => alpha / (alpha + beta)
  | S t' => (beta + INR (S t') - 1) / (alpha + beta + INR (S t'))
            * churn alpha beta t'
  end.

(** S(t) = 1 - (P(T=0) + ... + P(T=t)) *)
Definition surv (alpha beta : R) (t : nat) : R :=
  1 - sum_f_R0 (churn alpha beta) t.

(** The churn-probability sequence P(T=0), ..., P(T=n-1). *)
Definition churn_seq (alpha beta : R) (n : nat) : list R :=
  map (churn alpha beta) (seq 0 n).

(** r(t) = (beta+t)/(alpha+beta+t): the retention rate of period [t]. *)
Definition retention (alpha beta t : R) : R := (beta + t) / (alpha + beta + t).

(** s(t) = r(t) * s(t-1), from s(0) = r(0): the survival curve. *)
Fixpoint survival (alpha beta : R) (t : nat) : R :=
  match t with
  | O => retention alpha beta 0
  | S t' => retention alpha beta (INR (S t')) * survival alpha beta t'
  end.

(** The survival curve s(0), ..., s(n-1). *)
Definition survival_seq (alpha beta : R) (n : nat) : list R :=
  map (survival alpha beta) (seq 0 n).

(** The partial sum p[0] + ... + p[t] of a list. *)
Definition prefix_sum (p : list R) (t : nat) : R :=
  sum_f_R0 (fun k => nth k p 0) t.

(** rate[0] = 1 - obs[0] and rate[t] = obs[t-1] - obs[t]: the share of the
    cohort lost in period [t]. *)
Definition rate (obs : list R) (t : nat) : R :=
  match t with
  | O => 1 - nth 0 obs 0
  | S t' => nth t' obs 0 - nth t obs 0
  end.

(** The single-cohort log-likelihood as a formula: the sum over t < n of
    rate[t] * log P(T=t), plus obs[n-1] * log S(tail). *)
Definition single_cohort_formula (alpha beta : R) (obs : list R) (tail : nat)
  : R :=
  sum (map (fun t => rate obs t * ln (churn alpha beta t))
           (seq 0 (length obs)))
  + nth (length obs - 1) obs 0 * ln (surv alpha beta tail).

(** The contribution of cohort [i] out of [cohorts_total]: the sum over
    j <= L-2 of (count[j] - count[j+1]) * log P(T=j), plus
    count[L-1] * log S(cohorts_total - i - 1). *)
Definition cohort_term (alpha beta : R) (cohorts_total i : nat)
    (count : list R) : R :=
  sum (map (fun j => (nth j count 0 - nth (S j) count 0)
                     * ln (churn alpha beta j))
           (seq 0 (length count - 1)))
  + nth (length count - 1) count 0
    * ln (surv alpha beta (cohorts_total - i - 1)).

(** The sum of the contributions of the cohorts numbered from [i]. *)
Fixpoint cohort_terms (alpha beta : R) (cohorts_total i : nat)
    (data : list (list R)) : R :=
  match data with
  | [] => 0
  | count :: rest =>
      cohort_term alpha beta cohorts_total i count
      + cohort_terms alpha beta cohorts_total (S i) rest
  end.

(** The multi-cohort log-likelihood as a formula. *)
Definition multi_cohort_formula (alpha beta : R) (data : list (list R)) : R :=
  cohort_terms alpha beta (length data) 0 data.

(** ** The log-likelihoods written with the values the code computes *)

(** ((1 - p[0]) - p[1]) - ... - p[t]: the subtractions of [survivor], in
    the order the loop makes them. *)
Definition running_survivor (p : list R) (t : nat) : R :=
  fold_left Rminus (firstn t (tl p)) (1 - hd 0 p).

(** The sum over t of weights[t] * log(p[t]), plus last * log(s), as a
    number. *)
Definition single_cohort_sum (weights p : list R) (last s : R) : R :=
  sum (map (fun t => nth t weights 0 * ln (nth t p 0))
           (seq 0 (length weights)))
  + last * ln s.

(** The same expression with [math.log] as the code calls it: it raises
    [ValueError] at the first p[t], or at s, outside the domain of the
    logarithm. *)
Definition single_cohort_value (weights p : list R) (last s : R) : result R :=
  terms <- mapM (fun t => l <- log (nth t p 0) ;; Ok (nth t weights 0 * l))
                (seq 0 (length weights)) ;;
  l <- log s ;;
  Ok (sum terms + last * l).

(** The running total after cohort [i] out of [cohorts_total]: the total
    before it, plus the sum over j <= L-2 of
    (count[j] - count[j+1]) * log(p[j]), plus count[L-1] * log of the
    survivor value at index cohorts_total - i - 1. *)
Definition cohort_sum (p : list R) (cohorts_total i : nat) (count : list R)
    (total : R) : R :=
  total
  + sum (map (fun j => (nth j count 0 - nth (S j) count 0) * ln (nth j p 0))
             (seq 0 (length count - 1)))
  + nth (length count - 1) count 0
    * ln (running_survivor p (cohorts_total - i - 1)).

(** The running total after the cohorts numbered from [i], added in the
    order of the dataset. *)
Fixpoint cohorts_sum (p : list R) (cohorts_total i : nat)
    (data : list (list R)) (total : R) : R :=
  match data with
  | [] => total
  | count :: rest =>
      cohorts_sum p cohorts_total (S i) rest
                  (cohort_sum p cohorts_total i count total)
  end.

(** The same running totals with [math.log] and [survivor] as the code
    calls them. *)
Definition cohort_value (p : list R) (cohorts_total i : nat) (count : list R)
    (total : R) : result R :=
  terms <- mapM (fun j =>
                   l <- log (nth j p 0) ;;
                   Ok ((nth j count 0 - nth (S j) count 0) * l))
                (seq 0 (length count - 1)) ;;
  s <- survivor p (Z.of_nat (cohorts_total - i - 1)) ;;
  l <- log s ;;
  Ok (total + sum terms + nth (length count - 1) count 0 * l).

Fixpoint cohorts_value (p : list R) (cohorts_total i : nat)
    (data : list (list R)) (total : R) : result R :=
  match data with
  | [] => Ok total
  | count :: rest =>
      total' <- cohort_value p cohorts_total i count total ;;
      cohorts_value p cohorts_total (S i) rest total'
  end.

(** ** The arithmetic core on binary64 numbers

    [generate_probabilities], [survivor] and [sum] with Python's [float]:
    the same loops over IEEE 754 binary64 numbers, every operation rounded
    to nearest.  A loop counter enters the arithmetic as the nearest
    binary64 number, which is the counter itself below 2^53. *)
Module Binary64.

Definition float : Set := PrimFloat.float.

(** [float(z)] for an integer of magnitude below 2^63. *)
Definition of_int (z : Z) : float :=
  match z with
  | Z0 => PrimFloat.of_uint63 (Uint63.of_Z 0)
  | Zpos _ => PrimFloat.of_uint63 (Uint63.of_Z z)
  | Zneg q => PrimFloat.opp (PrimFloat.of_uint63 (Uint63.of_Z (Zpos q)))
  end.

(** [a / b] *)
Definition truediv (a b : float) : result float :=
  if PrimFloat.eqb b (of_int 0) then Raise ZeroDivisionError
  else Ok (PrimFloat.div a b).

(** [sum(l)] by additions from the left, starting from 0. *)
Definition sum (l : list float) : float :=
  fold_left PrimFloat.add l (of_int 0).

(** [generate_probabilities(alpha, beta, x)] *)
Definition generate_probabilities (alpha beta : float) (x : Z)
  : result (list float) :=
  p0 <- truediv alpha (PrimFloat.add alpha beta) ;;
  foldM (fun t p =>
           c <- truediv
                  (PrimFloat.sub (PrimFloat.add beta (of_int t)) (of_int 1))
                  (PrimFloat.add (PrimFloat.add alpha beta) (of_int t)) ;;
           prev <- getitem p (t - 1) ;;
           Ok (p ++ [PrimFloat.mul c prev]))
        (range 1 x) [p0].

(** [survivor(probabilities, t)] *)
Definition survivor (probabilities : list float) (t : Z) : result float :=
  p0 <- getitem probabilities 0 ;;
  foldM (fun x s => px <- getitem probabilities x ;; Ok (PrimFloat.sub s px))
        (range 1 (t + 1)) (PrimFloat.sub (of_int 1) p0).

End Binary64.

(** ** Basic facts about the built-ins *)

Lemma bind_Ok {A B : Type} (a : A) (k : A -> result B) :
  bind (Ok a) k = k a.
Proof. reflexivity. Qed.

Lemma truediv_Ok (a b : R) : b <> 0 -> truediv a b = Ok (a / b).
Proof.
  intros Hb. unfold truediv. destruct (Req_dec_T b 0) as [E | _].
  - contradiction.
  - reflexivity.
Qed.

Lemma truediv_zero (a : R) : truediv a 0 = Raise ZeroDivisionError.
Proof.
  unfold truediv. destruct (Req_dec_T 0 0) as [_ | N].
  - reflexivity.
  - exfalso. apply N. reflexivity.
Qed.

Lemma log_Ok (x : R) : 0 < x -> log x = Ok (ln x).
Proof.
  intros Hx. unfold log. destruct (Rlt_dec 0 x) as [_ | N].
  - reflexivity.
  - contradiction.
Qed.

Lemma Rleb_true (a b : R) : a <= b -> Rleb a b = true.
Proof.
  intros H. unfold Rleb. destruct (Rle_dec a b); [reflexivity | contradiction].
Qed.

Lemma Rleb_false (a b : R) : b < a -> Rleb a b = false.
Proof.
  intros H. unfold Rleb. destruct (Rle_dec a b); [lra | reflexivity].
Qed.

Lemma len_app {A : Type} (l l' : list A) : len (l ++ l') = (len l + len l')%Z.
Proof. unfold len. rewrite length_app. lia. Qed.

Lemma getitem_nat {A : Type} (l : list A) (i : nat) (a : A) :
  nth_error l i = Some a -> getitem l (Z.of_nat i) = Ok a.
Proof.
  intros H. unfold getitem.
  assert (E : (Z.of_nat i <? 0)%Z = false) by (apply Z.ltb_ge; lia).
  rewrite E. cbv zeta. rewrite E, Nat2Z.id, H. reflexivity.
Qed.

Lemma getitem_out {A : Type} (l : list A) (i : Z) :
  (len l <= i)%Z -> getitem l i = Raise IndexError.
Proof.
  intros H. unfold getitem, len in *.
  assert (E : (i <? 0)%Z = false) by (apply Z.ltb_ge; lia).
  rewrite E. cbv zeta. rewrite E.
  replace (nth_error l (Z.to_nat i)) with (@None A); [reflexivity |].
  symmetry. apply nth_error_None. lia.
Qed.

Lemma getitem_last {A : Type} (l : list A) (a : A) :
  getitem (l ++ [a]) (-1) = Ok a.
Proof.
  unfold getitem. change (-1 <? 0)%Z with true. cbv iota zeta.
  rewrite len_app. unfold len. cbn [length].
  destruct (Z.ltb_spec (-1 + (Z.of_nat (length l) + Z.of_nat 1)) 0)
    as [Hneg | _]; [lia |].
  replace (Z.to_nat (-1 + (Z.of_nat (length l) + Z.of_nat 1))) with (length l)
    by lia.
  rewrite nth_error_app2 by lia. rewrite Nat.sub_diag. reflexivity.
Qed.

Lemma getitem_empty {A : Type} (i : Z) : getitem (@nil A) i = Raise IndexError.
Proof.
  unfold getitem. cbn [len length Z.of_nat].
  destruct (i <? 0)%Z eqn:E; cbv zeta.
  - rewrite Z.add_0_r, E. reflexivity.
  - rewrite E. destruct (Z.to_nat i); reflexivity.
Qed.

Lemma nth_error_churn_seq (alpha beta : R) (n t : nat) :
  (t < n)%nat -> nth_error (churn_seq alpha beta n) t = Some (churn alpha beta t).
Proof.
  intros H. unfold churn_seq.
  rewrite nth_error_map, nth_error_seq.
  replace (t <? n)%nat with true by (symmetry; apply Nat.ltb_lt; exact H).
  reflexivity.
Qed.

Lemma getitem_churn_seq (alpha beta : R) (n t : nat) :
  (t < n)%nat ->
  getitem (churn_seq alpha beta n) (Z.of_nat t) = Ok (churn alpha beta t).
Proof.
  intros H. apply getitem_nat, nth_error_churn_seq, H.
Qed.

Lemma length_churn_seq (alpha beta : R) (n : nat) :
  length (churn_seq alpha beta n) = n.
Proof. unfold churn_seq. rewrite length_map, length_seq. reflexivity. Qed.

Lemma range_empty (lo hi : Z) : (hi <= lo)%Z -> range lo hi = [].
Proof.
  intros H. unfold range. replace (Z.to_nat (hi - lo)) with 0%nat by lia.
  reflexivity.
Qed.

(** ** Loops that extend a list by a first-order recurrence *)

(** Both [generate_probabilities] and [predicted_survival] run the loop
    [for t in range(1, x): s.append(coef(t) * s[t-1])].  When [f] obeys the
    recurrence, the loop extends [f 0, ..., f a] to [f 0, ..., f (a+k)]. *)
Lemma recurrence_loop (coef : Z -> result R) (f : nat -> R) :
  (forall a, exists c, coef (Z.of_nat (S a)) = Ok c /\ f (S a) = c * f a) ->
  forall k a,
    foldM (fun t s =>
             c <- coef t ;;
             prev <- getitem s (t - 1) ;;
             Ok (s ++ [c * prev]))
          (iota (Z.of_nat (S a)) k) (map f (seq 0 (S a)))
    = Ok (map f (seq 0 (S a + k))).
Proof.
  intros Hrec. induction k as [| k IH]; intros a.
  - rewrite Nat.add_0_r. reflexivity.
  - cbn [iota foldM].
    destruct (Hrec a) as [c [Hc Hf]]. rewrite Hc, bind_Ok.
    replace (Z.of_nat (S a) - 1)%Z with (Z.of_nat a) by lia.
    rewrite (getitem_nat _ a (f a)).
    2:{ rewrite nth_error_map, nth_error_seq.
        replace (a <? S a)%nat with true by (symmetry; apply Nat.ltb_lt; lia).
        reflexivity. }
    rewrite !bind_Ok, <- Hf.
    replace (map f (seq 0 (S a)) ++ [f (S a)]) with (map f (seq 0 (S (S a))))
      by (rewrite (seq_S (S a)), map_app; reflexivity).
    replace (Z.of_nat (S a) + 1)%Z with (Z.of_nat (S (S a))) by lia.
    rewrite IH.
    replace (S (S a) + k)%nat with (S a + S k)%nat by lia. reflexivity.
Qed.

(** ** The survivor loop on an arbitrary list *)

Lemma nth_error_nth_R (p : list R) (k : nat) :
  (k < length p)%nat -> nth_error p k = Some (nth k p 0).
Proof. intros H. apply nth_error_nth'. exact H. Qed.

Lemma survivor_loop (p : list R) (k a : nat) :
  (a + k < length p)%nat ->
  foldM (fun x s => px <- getitem p x ;; Ok (s - px))
        (iota (Z.of_nat (S a)) k) (1 - prefix_sum p a)
  = Ok (1 - prefix_sum p (a + k)).
Proof.
  revert a. induction k as [| k IH]; intros a Hlen.
  - rewrite Nat.add_0_r. reflexivity.
  - cbn [iota foldM].
    rewrite (getitem_nat p (S a) (nth (S a) p 0))
      by (apply nth_error_nth_R; lia).
    rewrite !bind_Ok.
    replace (Z.of_nat (S a) + 1)%Z with (Z.of_nat (S (S a))) by lia.
    replace (1 - prefix_sum p a - nth (S a) p 0)
      with (1 - prefix_sum p (S a))
      by (unfold prefix_sum; cbn [sum_f_R0]; lra).
    rewrite IH by lia.
    replace (S a + k)%nat with (a + S k)%nat by lia. reflexivity.
Qed.

(** For an index inside the list, [survivor] is 1 minus the partial sum. *)
Lemma survivor_Ok (p : list R) (t : Z) :
  (0 <= t < len p)%Z ->
  survivor p t = Ok (1 - prefix_sum p (Z.to_nat t)).
Proof.
  unfold len. intros Ht. unfold survivor.
  change 0%Z with (Z.of_nat 0).
  rewrite (getitem_nat p 0 (nth 0 p 0)) by (apply nth_error_nth_R; lia).
  rewrite bind_Ok. unfold range.
  change (1 - nth 0 p 0) with (1 - prefix_sum p 0).
  change 1%Z with (Z.of_nat 1) at 1.
  rewrite survivor_loop by lia.
  do 3 f_equal. lia.
Qed.

(** For an index below 1 the loop does not run: the result is 1 - p[0]. *)
Lemma survivor_nonpositive (p : list R) (t : Z) (p0 : R) :
  (t <= 0)%Z -> survivor (p0 :: p) t = Ok (1 - p0).
Proof.
  intros Ht. unfold survivor.
  change (getitem (p0 :: p) 0) with (Ok p0).
  rewrite bind_Ok, range_empty by lia. reflexivity.
Qed.

(** Past the end of the list the loop raises [IndexError]. *)
Lemma survivor_out (p : list R) (t : Z) :
  (len p <= t)%Z -> survivor p t = Raise IndexError.
Proof.
  unfold len. intros Ht. unfold survivor.
  destruct p as [| p0 p].
  - rewrite getitem_empty. reflexivity.
  - change (getitem (p0 :: p) 0) with (Ok p0). rewrite bind_Ok.
    set (q := p0 :: p) in *.
    assert (Hq : (1 <= length q)%nat) by (subst q; cbn; lia).
    unfold range.
    replace (Z.to_nat (t + 1 - 1)) with ((length q - 1) + S (Z.to_nat t - length q + 0))%nat
      by lia.
    assert (Hgen : forall k a s, (a + k = length q - 1)%nat ->
              forall m, foldM (fun x s => px <- getitem q x ;; Ok (s - px))
                      (iota (Z.of_nat (S a)) (k + S m)) s = Raise IndexError).
    { induction k as [| k IH]; intros a s Hak m.
      - cbn [Nat.add iota foldM].
        rewrite getitem_out by (unfold len; lia). reflexivity.
      - cbn [Nat.add iota foldM].
        rewrite (getitem_nat q (S a) (nth (S a) q 0))
          by (apply nth_error_nth_R; lia).
        rewrite !bind_Ok.
        replace (Z.of_nat (S a) + 1)%Z with (Z.of_nat (S (S a))) by lia.
        apply IH. lia. }
    change 1%Z with (Z.of_nat 1). apply Hgen. lia.
Qed.

Lemma sum_app (l l' : list R) : sum (l ++ l') = sum l + sum l'.
Proof.
  unfold sum. rewrite fold_left_app.
  generalize (fold_left Rplus l 0). induction l' as [| x l' IH]; intros acc.
  - cbn. lra.
  - cbn [fold_left]. rewrite IH, (IH (0 + x)). lra.
Qed.

Lemma sum_map_seq (f : nat -> R) (m : nat) :
  sum (map f (seq 0 (S m))) = sum_f_R0 f m.
Proof.
  induction m as [| m IH].
  - unfold sum. cbn. lra.
  - rewrite (seq_S (S m)), map_app, sum_app, IH.
    unfold sum. cbn. lra.
Qed.

Lemma prefix_sum_map (f : nat -> R) (n t : nat) :
  (t < n)%nat -> prefix_sum (map f (seq 0 n)) t = sum_f_R0 f t.
Proof.
  intros Ht. unfold prefix_sum. apply sum_eq. intros k Hk.
  rewrite (nth_indep _ 0 (f 0%nat)) by (rewrite length_map, length_seq; lia).
  rewrite map_nth, seq_nth by lia. reflexivity.
Qed.

(** ** Comprehensions and enumerations *)

Lemma getitem_nth (l : list R) (i : nat) :
  (i < length l)%nat -> getitem l (Z.of_nat i) = Ok (nth i l 0).
Proof. intros H. apply getitem_nat, nth_error_nth_R, H. Qed.

Lemma getitem_minus_one (l : list R) :
  l <> [] -> getitem l (-1) = Ok (nth (length l - 1) l 0).
Proof.
  intros Hne. destruct (exists_last Hne) as [l' [a E]]. subst l.
  rewrite getitem_last, length_app. cbn [length].
  rewrite app_nth2 by lia.
  replace (length l' + 1 - 1 - length l')%nat with 0%nat by lia.
  reflexivity.
Qed.

Lemma iota_seq (a k : nat) : iota (Z.of_nat a) k = map Z.of_nat (seq a k).
Proof.
  revert a. induction k as [| k IH]; intros a.
  - reflexivity.
  - cbn [iota seq map]. f_equal.
    replace (Z.of_nat a + 1)%Z with (Z.of_nat (S a)) by lia. apply IH.
Qed.

Lemma combine_map {A B C : Type} (u : A -> B) (g : A -> C) (l : list A) :
  combine (map u l) (map g l) = map (fun a => (u a, g a)) l.
Proof.
  induction l as [| a l IH]; cbn; [| rewrite IH]; reflexivity.
Qed.

Lemma enumerate_map_seq {A : Type} (g : nat -> A) (n : nat) :
  enumerate (map g (seq 0 n)) = map (fun i => (Z.of_nat i, g i)) (seq 0 n).
Proof.
  unfold enumerate, range, len.
  rewrite length_map, length_seq, Z.sub_0_r, Nat2Z.id.
  change 0%Z with (Z.of_nat 0). rewrite iota_seq. apply combine_map.
Qed.

(** A comprehension none of whose elements raises. *)
Lemma mapM_map_Ok {A B C : Type} (u : A -> B) (f : B -> result C) (h : A -> C)
    (l : list A) :
  (forall a, In a l -> f (u a) = Ok (h a)) ->
  mapM f (map u l) = Ok (map h l).
Proof.
  induction l as [| a l IH]; intros Hf.
  - reflexivity.
  - cbn [map mapM]. rewrite Hf by (left; reflexivity). rewrite bind_Ok.
    rewrite IH by (intros a' Ha'; apply Hf; right; exact Ha').
    reflexivity.
Qed.

(** The loop of [survivor_rates], after the first [length done] rounds. *)
Lemma survivor_rates_loop (data todo done : list R) :
  data = done ++ todo ->
  foldM (fun '(i, _) s =>
           if (i =? 0)%Z then
             d0 <- getitem data 0 ;;
             Ok (s ++ [1 - d0])
           else
             dp <- getitem data (i - 1) ;;
             di <- getitem data i ;;
             Ok (s ++ [dp - di]))
        (combine (iota (Z.of_nat (length done)) (length todo)) todo)
        (map (rate data) (seq 0 (length done)))
  = Ok (map (rate data) (seq 0 (length data))).
Proof.
  revert done. induction todo as [| x todo IH]; intros done Hdata.
  - subst data. rewrite app_nil_r. reflexivity.
  - assert (Hlen : length data = (length done + S (length todo))%nat)
      by (subst data; rewrite length_app; reflexivity).
    cbn [length iota combine foldM].
    assert (Hstep :
      (if (Z.of_nat (length done) =? 0)%Z then
         d0 <- getitem data 0 ;;
         Ok (map (rate data) (seq 0 (length done)) ++ [1 - d0])
       else
         dp <- getitem data (Z.of_nat (length done) - 1) ;;
         di <- getitem data (Z.of_nat (length done)) ;;
         Ok (map (rate data) (seq 0 (length done)) ++ [dp - di]))
      = Ok (map (rate data) (seq 0 (length (done ++ [x]))))).
    { rewrite length_app. cbn [length]. rewrite Nat.add_1_r.
      rewrite seq_S, map_app. cbn [map Nat.add].
      destruct (length done) as [| a] eqn:Ea.
      - cbn [Z.of_nat Z.eqb].
        change 0%Z with (Z.of_nat 0). rewrite getitem_nth by lia.
        reflexivity.
      - destruct (Z.eqb_spec (Z.of_nat (S a)) 0) as [E | _]; [lia |].
        replace (Z.of_nat (S a) - 1)%Z with (Z.of_nat a) by lia.
        rewrite !getitem_nth by lia. reflexivity. }
    rewrite Hstep, bind_Ok.
    replace (Z.of_nat (length done) + 1)%Z
      with (Z.of_nat (length (done ++ [x])))
      by (rewrite length_app; cbn [length]; lia).
    apply IH. subst data. rewrite <- app_assoc. reflexivity.
Qed.

Lemma survivor_rates_Ok (data : list R) :
  survivor_rates data = Ok (map (rate data) (seq 0 (length data))).
Proof.
  unfold survivor_rates, enumerate, range, len.
  rewrite Z.sub_0_r, Nat2Z.id.
  apply (survivor_rates_loop data data []). reflexivity.
Qed.

(** ** The generated sequences for positive shape parameters *)

Section PositiveShape.

Variables alpha beta : R.
Hypothesis alpha_pos : 0 < alpha.
Hypothesis beta_pos : 0 < beta.

Lemma denominator_pos (t : nat) : 0 < alpha + beta + INR t.
Proof. pose proof (pos_INR t). lra. Qed.

Lemma churn_pos (t : nat) : 0 < churn alpha beta t.
Proof.
  induction t as [| t IH].
  - cbn [churn]. apply Rdiv_lt_0_compat; lra.
  - cbn [churn]. apply Rmult_lt_0_compat; [| exact IH].
    apply Rdiv_lt_0_compat; [| apply denominator_pos].
    rewrite S_INR. pose proof (pos_INR t). lra.
Qed.

(** [generate_probabilities] returns P(T=0), ..., P(T=max(x,1)-1). *)
Lemma generate_probabilities_Ok (x : Z) :
  generate_probabilities alpha beta x
  = Ok (churn_seq alpha beta (Z.to_nat (Z.max x 1))).
Proof.
  unfold generate_probabilities.
  rewrite truediv_Ok by lra. rewrite bind_Ok.
  change [alpha / (alpha + beta)] with (map (churn alpha beta) (seq 0 1)).
  unfold range, churn_seq. change 1%Z with (Z.of_nat 1).
  rewrite (recurrence_loop
             (fun t => truediv (beta + IZR t - 1) (alpha + beta + IZR t))).
  - replace (1 + Z.to_nat (x - Z.of_nat 1))%nat with (Z.to_nat (Z.max x 1))
      by lia.
    reflexivity.
  - intros a. eexists. split.
    + rewrite <- INR_IZR_INZ. apply truediv_Ok.
      apply Rgt_not_eq, Rlt_gt, denominator_pos.
    + reflexivity.
Qed.

Lemma predicted_retention_Ok (t : R) :
  0 <= t -> predicted_retention alpha beta t = Ok (retention alpha beta t).
Proof.
  intros Ht. unfold predicted_retention. apply truediv_Ok. lra.
Qed.

(** [predicted_survival] returns s(0), ..., s(max(x,1)-1). *)
Lemma predicted_survival_Ok (x : Z) :
  predicted_survival alpha beta x
  = Ok (survival_seq alpha beta (Z.to_nat (Z.max x 1))).
Proof.
  unfold predicted_survival.
  rewrite predicted_retention_Ok by lra. rewrite bind_Ok.
  change [retention alpha beta 0] with (map (survival alpha beta) (seq 0 1)).
  unfold range, survival_seq. change 1%Z with (Z.of_nat 1).
  rewrite (recurrence_loop (fun t => predicted_retention alpha beta (IZR t))).
  - replace (1 + Z.to_nat (x - Z.of_nat 1))%nat with (Z.to_nat (Z.max x 1))
      by lia.
    reflexivity.
  - intros a. eexists. split.
    + rewrite <- INR_IZR_INZ. apply predicted_retention_Ok, pos_INR.
    + reflexivity.
Qed.

Lemma surv_S (t : nat) :
  surv alpha beta (S t) = surv alpha beta t - churn alpha beta (S t).
Proof. unfold surv. cbn [sum_f_R0]. lra. Qed.

(** P(T=t+1) = alpha/(alpha+beta+t+1) * S(t): what telescopes the sum. *)
Lemma churn_from_surv (t : nat) :
  churn alpha beta (S t)
  = alpha / (alpha + beta + INR (S t)) * surv alpha beta t.
Proof.
  induction t as [| t IH].
  - unfold surv. cbn [sum_f_R0 churn]. rewrite S_INR. cbn [INR]. field. lra.
  - pose proof (denominator_pos (S t)) as H1.
    pose proof (denominator_pos (S (S t))) as H2.
    rewrite surv_S, IH.
    change (churn alpha beta (S (S t)))
      with ((beta + INR (S (S t)) - 1) / (alpha + beta + INR (S (S t)))
            * churn alpha beta (S t)).
    rewrite IH. rewrite (S_INR (S t)) in *. field. lra.
Qed.

(** S(t) = r(t) * S(t-1): the survivor value is the survival curve. *)
Lemma surv_is_survival (t : nat) : surv alpha beta t = survival alpha beta t.
Proof.
  induction t as [| t IH].
  - unfold surv, retention. cbn [sum_f_R0 churn survival]. unfold retention.
    field. lra.
  - pose proof (denominator_pos (S t)) as H1.
    rewrite surv_S, churn_from_surv. cbn [survival]. rewrite <- IH.
    unfold retention. field. lra.
Qed.

Lemma survival_pos (t : nat) : 0 < survival alpha beta t.
Proof.
  assert (Hr : forall k, 0 < retention alpha beta (INR k)).
  { intros k. unfold retention. pose proof (pos_INR k).
    apply Rdiv_lt_0_compat; lra. }
  induction t as [| t IH].
  - apply (Hr 0%nat).
  - cbn [survival]. apply Rmult_lt_0_compat; [apply Hr | exact IH].
Qed.

Lemma surv_pos (t : nat) : 0 < surv alpha beta t.
Proof. rewrite surv_is_survival. apply survival_pos. Qed.

(** On the generated sequence [survivor] computes S(t). *)
Lemma survivor_churn_seq (n t : nat) :
  (t < n)%nat ->
  survivor (churn_seq alpha beta n) (Z.of_nat t) = Ok (surv alpha beta t).
Proof.
  intros Ht. rewrite survivor_Ok.
  - rewrite Nat2Z.id. unfold churn_seq. rewrite prefix_sum_map by exact Ht.
    reflexivity.
  - unfold len. rewrite length_churn_seq. lia.
Qed.

(** The recursive [probability] computes P(T=t) when the interpreter
    allows more than [t] nested calls. *)
Lemma probability_Ok (t depth : nat) :
  (t < depth)%nat ->
  probability depth alpha beta (Z.of_nat t) = Ok (churn alpha beta t).
Proof.
  revert depth. induction t as [| t IH]; intros depth Hd.
  - destruct depth as [| d]; [lia |]. cbn [probability Z.of_nat Z.eqb].
    apply truediv_Ok. lra.
  - destruct depth as [| d]; [lia |]. cbn [probability].
    destruct (Z.eqb_spec (Z.of_nat (S t)) 0) as [E | _]; [lia |].
    rewrite <- INR_IZR_INZ.
    rewrite truediv_Ok by (apply Rgt_not_eq, Rlt_gt, denominator_pos).
    rewrite bind_Ok.
    replace (Z.of_nat (S t) - 1)%Z with (Z.of_nat t) by lia.
    rewrite IH by lia. reflexivity.
Qed.

Lemma guard_passes : Rleb alpha 0 || Rleb beta 0 = false.
Proof. rewrite !Rleb_false by assumption. reflexivity. Qed.

(** [log_likelihood] on a non-empty series: the tail term is taken at the
    survivor value of index n-1. *)
Lemma log_likelihood_Ok (data : list R) :
  data <> [] ->
  log_likelihood alpha beta data None
  = Ok (single_cohort_formula alpha beta data (length data - 1)).
Proof.
  intros Hne.
  assert (Hn : (1 <= length data)%nat).
  { destruct data; [contradiction | cbn; lia]. }
  unfold log_likelihood. rewrite guard_passes.
  rewrite survivor_rates_Ok, bind_Ok.
  rewrite generate_probabilities_Ok, bind_Ok.
  replace (Z.to_nat (Z.max (len data) 1)) with (length data)
    by (unfold len; lia).
  replace (len data - 1)%Z with (Z.of_nat (length data - 1))
    by (unfold len; lia).
  rewrite survivor_churn_seq by lia. rewrite bind_Ok.
  rewrite enumerate_map_seq.
  rewrite (mapM_map_Ok _ _
             (fun t => rate data t * ln (churn alpha beta t))).
  2:{ intros t Ht. apply in_seq in Ht.
      rewrite getitem_churn_seq by lia.
      rewrite bind_Ok, log_Ok by apply churn_pos. reflexivity. }
  rewrite bind_Ok, getitem_minus_one by exact Hne.
  rewrite bind_Ok, log_Ok by apply surv_pos. reflexivity.
Qed.

(** One round of the loop over cohorts. *)
Lemma cohort_body_Ok (m cohorts_total i : nat) (cohort : list R) (total : R) :
  (1 <= length cohort <= m + 1)%nat ->
  (i < cohorts_total)%nat -> (cohorts_total - i - 1 < m)%nat ->
  cohort_body (churn_seq alpha beta m) (Z.of_nat cohorts_total)
              (Z.of_nat i, cohort) total
  = Ok (total + cohort_term alpha beta cohorts_total i cohort).
Proof.
  intros Hlen Hi Htail. unfold cohort_body, range, len.
  replace (Z.to_nat (Z.of_nat (length cohort) - 1 - 0))
    with (length cohort - 1)%nat by lia.
  change 0%Z with (Z.of_nat 0). rewrite iota_seq.
  rewrite (mapM_map_Ok _ _
             (fun j => (nth j cohort 0 - nth (S j) cohort 0)
                       * ln (churn alpha beta j))).
  2:{ intros j Hj. apply in_seq in Hj.
      rewrite getitem_nth by lia. rewrite bind_Ok.
      replace (Z.of_nat j + 1)%Z with (Z.of_nat (S j)) by lia.
      rewrite getitem_nth by lia. rewrite bind_Ok.
      rewrite getitem_churn_seq by lia.
      rewrite bind_Ok, log_Ok by apply churn_pos. reflexivity. }
  rewrite bind_Ok. cbv zeta.
  rewrite getitem_minus_one by (destruct cohort; [cbn in Hlen; lia | discriminate]).
  rewrite bind_Ok.
  replace (Z.of_nat cohorts_total - Z.of_nat i - 1)%Z
    with (Z.of_nat (cohorts_total - i - 1)) by lia.
  rewrite survivor_churn_seq by exact Htail.
  rewrite bind_Ok, log_Ok by apply surv_pos. rewrite bind_Ok.
  unfold cohort_term. f_equal. ring.
Qed.

(** The loop over the cohorts numbered from [i]. *)
Lemma cohort_loop (m cohorts_total : nat) (data : list (list R)) :
  forall (i : nat) (total : R),
    (forall cohort, In cohort data -> (1 <= length cohort <= m + 1)%nat) ->
    (i + length data = cohorts_total)%nat ->
    (cohorts_total - i - 1 < m)%nat ->
    foldM (cohort_body (churn_seq alpha beta m) (Z.of_nat cohorts_total))
          (combine (iota (Z.of_nat i) (length data)) data) total
    = Ok (total + cohort_terms alpha beta cohorts_total i data).
Proof.
  induction data as [| cohort data IH]; intros i total Hall Hi Htail.
  - cbn. f_equal. ring.
  - cbn [length iota combine foldM cohort_terms]. cbn [length] in Hi.
    rewrite cohort_body_Ok; [| apply Hall; left; reflexivity | lia | lia].
    rewrite bind_Ok.
    replace (Z.of_nat i + 1)%Z with (Z.of_nat (S i)) by lia.
    rewrite IH; [| intros c Hc; apply Hall; right; exact Hc | lia | lia].
    f_equal. ring.
Qed.

(** [log_likelihood_multi_cohort] when the sequence sized by the first
    cohort is long enough for every index the loop uses. *)
Lemma log_likelihood_multi_cohort_Ok (first : list R) (rest : list (list R)) :
  (forall cohort, In cohort (first :: rest) ->
     (1 <= length cohort <= length first + 1)%nat) ->
  (length (first :: rest) <= length first)%nat ->
  log_likelihood_multi_cohort alpha beta (first :: rest)
  = Ok (multi_cohort_formula alpha beta (first :: rest)).
Proof.
  intros Hall Hcount.
  assert (Hfirst : (1 <= length first)%nat).
  { apply (Hall first). left. reflexivity. }
  unfold log_likelihood_multi_cohort. rewrite guard_passes.
  change (getitem (first :: rest) 0) with (Ok first). rewrite bind_Ok.
  rewrite generate_probabilities_Ok, bind_Ok. cbv zeta.
  replace (Z.to_nat (Z.max (len first) 1)) with (length first)
    by (unfold len; lia).
  unfold enumerate, range, len. rewrite Z.sub_0_r, Nat2Z.id.
  change 0%Z with (Z.of_nat 0).
  rewrite (cohort_loop (length first) (length (first :: rest)));
    [| exact Hall | reflexivity | lia].
  unfold multi_cohort_formula. f_equal. ring.
Qed.

End PositiveShape.

(** ** The functions at alpha = beta = 1 *)

Example generate_probabilities_1_1_3 :
  generate_probabilities 1 1 3 = Ok [1 / 2; 1 / 6; 1 / 12].
Proof.
  rewrite generate_probabilities_Ok by lra.
  change (Z.to_nat (Z.max 3 1)) with 3%nat.
  unfold churn_seq. cbn [seq map churn INR].
  f_equal. repeat (apply (f_equal2 (@cons R)); [field |]). reflexivity.
Qed.

Example survivor_1_1_3 :
  survivor [1 / 2; 1 / 6; 1 / 12] 2 = Ok (1 / 4).
Proof.
  rewrite survivor_Ok by (unfold len; cbn; lia).
  change (Z.to_nat 2) with 2%nat.
  unfold prefix_sum. cbn [sum_f_R0 nth]. f_equal. field.
Qed.

Example predicted_survival_1_1_3 :
  predicted_survival 1 1 3 = Ok [1 / 2; 2 / 3 * (1 / 2); 3 / 4 * (2 / 3 * (1 / 2))].
Proof.
  rewrite predicted_survival_Ok by lra.
  change (Z.to_nat (Z.max 3 1)) with 3%nat.
  unfold survival_seq. cbn [seq map survival INR]. unfold retention.
  f_equal. repeat (apply (f_equal2 (@cons R)); [field |]). reflexivity.
Qed.

Example survivor_rates_example :
  survivor_rates [1 / 2; 1 / 4] = Ok [1 - 1 / 2; 1 / 2 - 1 / 4].
Proof. rewrite survivor_rates_Ok. reflexivity. Qed.

Example probability_out_of_depth :
  probability 2 1 1 2 = Raise RecursionError.
Proof.
  cbn [probability Z.eqb Z.sub Z.add Z.opp Z.pos_sub Pos.pred_double].
  rewrite !truediv_Ok by lra. reflexivity.
Qed.

(** ** C1, C10: shape of the generated sequences *)

(** C1: for alpha > 0, beta > 0 and n >= 1, [generate_probabilities alpha
    beta n] returns a list of length n whose element 0 is
    alpha/(alpha+beta) and whose element t, for 1 <= t < n, is
    (beta+t-1)/(alpha+beta+t) times its element t-1. *)
Theorem generate_probabilities_recurrence (alpha beta : R) (n : Z) :
  0 < alpha -> 0 < beta -> (1 <= n)%Z ->
  exists p,
    generate_probabilities alpha beta n = Ok p /\
    len p = n /\
    getitem p 0 = Ok (alpha / (alpha + beta)) /\
    forall t, (1 <= t < n)%Z ->
      exists prev,
        getitem p (t - 1) = Ok prev /\
        getitem p t = Ok ((beta + IZR t - 1) / (alpha + beta + IZR t) * prev).
Proof.
  intros Ha Hb Hn.
  exists (churn_seq alpha beta (Z.to_nat n)).
  rewrite (generate_probabilities_Ok alpha beta Ha Hb).
  replace (Z.max n 1) with n by lia.
  split; [reflexivity |]. split.
  { unfold len. rewrite length_churn_seq. lia. }
  split.
  { change 0%Z with (Z.of_nat 0). rewrite getitem_churn_seq by lia. reflexivity. }
  intros t Ht. exists (churn alpha beta (Z.to_nat (t - 1))). split.
  - rewrite <- (Z2Nat.id (t - 1)) at 1 by lia.
    apply getitem_churn_seq. lia.
  - rewrite <- (Z2Nat.id t) at 1 by lia.
    rewrite getitem_churn_seq by lia.
    replace (Z.to_nat t) with (S (Z.to_nat (t - 1))) by lia.
    cbn [churn]. rewrite INR_IZR_INZ.
    replace (Z.of_nat (S (Z.to_nat (t - 1)))) with t by lia.
    reflexivity.
Qed.

Lemma generate_probabilities_recurrence_witness :
  exists p,
    generate_probabilities 1 1 3 = Ok p /\
    len p = 3%Z /\
    getitem p 0 = Ok (1 / (1 + 1)) /\
    forall t, (1 <= t < 3)%Z ->
      exists prev,
        getitem p (t - 1) = Ok prev /\
        getitem p t = Ok ((1 + IZR t - 1) / (1 + 1 + IZR t) * prev).
Proof.
  apply (generate_probabilities_recurrence 1 1 3); [lra | lra | lia].
Defined.

(** C10: for alpha > 0, beta > 0 and every integer horizon x,
    [generate_probabilities] and [predicted_survival] return a list of
    length max(x, 1); for x <= 0 it is the one-element list holding the
    period-0 value, not an empty list and not an error. *)
Theorem horizon_at_least_one (alpha beta : R) (x : Z) :
  0 < alpha -> 0 < beta ->
  exists p s,
    generate_probabilities alpha beta x = Ok p /\
    predicted_survival alpha beta x = Ok s /\
    len p = Z.max x 1 /\
    len s = Z.max x 1 /\
    ((x <= 0)%Z -> p = [alpha / (alpha + beta)] /\ s = [beta / (alpha + beta)]).
Proof.
  intros Ha Hb.
  exists (churn_seq alpha beta (Z.to_nat (Z.max x 1))).
  exists (survival_seq alpha beta (Z.to_nat (Z.max x 1))).
  split; [apply generate_probabilities_Ok; assumption |].
  split; [apply predicted_survival_Ok; assumption |].
  split; [unfold len; rewrite length_churn_seq; lia |].
  split; [unfold len, survival_seq; rewrite length_map, length_seq; lia |].
  intros Hx. replace (Z.max x 1) with 1%Z by lia.
  change (Z.to_nat 1) with 1%nat. cbn. split; [reflexivity |].
  unfold retention. do 2 f_equal; lra.
Qed.

Lemma horizon_at_least_one_witness :
  exists p s,
    generate_probabilities 2 3 0 = Ok p /\
    predicted_survival 2 3 0 = Ok s /\
    len p = Z.max 0 1 /\
    len s = Z.max 0 1 /\
    ((0 <= 0)%Z -> p = [2 / (2 + 3)] /\ s = [3 / (2 + 3)]).
Proof.
  apply (horizon_at_least_one 2 3 0); lra.
Defined.

(** ** C4, C8: the survivor function on the generated sequence *)

(** C4, amended: in exact arithmetic (alpha, beta and every intermediate
    value a real number, no rounding), for n >= 1 and alpha, beta > 0 the
    sequence p = [generate_probabilities alpha beta n] sums to less than
    1, and its sum plus [survivor p (n-1)] is exactly 1. *)
Theorem telescoping_identity (alpha beta : R) (n : Z) :
  0 < alpha -> 0 < beta -> (1 <= n)%Z ->
  exists p s,
    generate_probabilities alpha beta n = Ok p /\
    survivor p (n - 1) = Ok s /\
    sum p < 1 /\
    sum p + s = 1.
Proof.
  intros Ha Hb Hn.
  exists (churn_seq alpha beta (Z.to_nat n)).
  exists (surv alpha beta (Z.to_nat (n - 1))).
  split.
  { rewrite (generate_probabilities_Ok alpha beta Ha Hb).
    replace (Z.max n 1) with n by lia. reflexivity. }
  split.
  { rewrite <- (Z2Nat.id (n - 1)) at 1 by lia.
    apply survivor_churn_seq; lia. }
  assert (Hsum : sum (churn_seq alpha beta (Z.to_nat n))
                 = sum_f_R0 (churn alpha beta) (Z.to_nat (n - 1))).
  { replace (Z.to_nat n) with (S (Z.to_nat (n - 1))) by lia.
    apply sum_map_seq. }
  pose proof (surv_pos alpha beta Ha Hb (Z.to_nat (n - 1))) as Hs.
  rewrite Hsum. unfold surv in *. split; lra.
Qed.

Lemma telescoping_identity_witness :
  exists p s,
    generate_probabilities 1 1 3 = Ok p /\
    survivor p (3 - 1) = Ok s /\
    sum p < 1 /\
    sum p + s = 1.
Proof.
  apply (telescoping_identity 1 1 3); [lra | lra | lia].
Defined.

(** C8 as stated fails at t = -1: on the sequence generated for alpha =
    beta = 1 and n = 1, [survivor p (-1)] is 1/2, not 1. *)
Lemma survivor_minus_one_is_not_one :
  exists p,
    generate_probabilities 1 1 1 = Ok p /\
    survivor p (-1) = Ok (1 / 2) /\
    survivor p (-1) <> Ok 1.
Proof.
  exists [1 / (1 + 1)]. split; [| split].
  - rewrite generate_probabilities_Ok by lra. reflexivity.
  - rewrite survivor_nonpositive by lia. f_equal. lra.
  - rewrite survivor_nonpositive by lia. intros E.
    injection E as E. lra.
Qed.

(** ** C9: the recursive and the iterative definition agree *)

(** C9: for alpha > 0, beta > 0, n >= 1 and 0 <= t < n, the recursive
    [probability alpha beta t] returns element t of [generate_probabilities
    alpha beta n], as soon as the interpreter allows the t+1 nested calls
    of the recursion. *)
Theorem probability_agrees_with_sequence
    (alpha beta : R) (n t : Z) (depth : nat) :
  0 < alpha -> 0 < beta -> (1 <= n)%Z -> (0 <= t < n)%Z ->
  (Z.to_nat t < depth)%nat ->
  exists v p,
    probability depth alpha beta t = Ok v /\
    generate_probabilities alpha beta n = Ok p /\
    getitem p t = Ok v.
Proof.
  intros Ha Hb Hn Ht Hd.
  exists (churn alpha beta (Z.to_nat t)), (churn_seq alpha beta (Z.to_nat n)).
  split; [| split].
  - rewrite <- (Z2Nat.id t) at 1 by lia.
    apply probability_Ok; assumption.
  - rewrite (generate_probabilities_Ok alpha beta Ha Hb).
    replace (Z.max n 1) with n by lia. reflexivity.
  - rewrite <- (Z2Nat.id t) at 1 by lia. apply getitem_churn_seq. lia.
Qed.

Lemma probability_agrees_with_sequence_witness :
  exists v p,
    probability 5 1 1 2 = Ok v /\
    generate_probabilities 1 1 3 = Ok p /\
    getitem p 2 = Ok v.
Proof.
  apply (probability_agrees_with_sequence 1 1 3 2 5); [lra | lra | lia | lia |].
  change (Z.to_nat 2) with 2%nat. lia.
Defined.

(** ** C5: the domain guard of the likelihood functions *)

(** C5: whenever alpha <= 0 or beta <= 0, [log_likelihood] and
    [log_likelihood_multi_cohort] both return the sentinel -1000, whatever
    the data and the optional survivors are: nothing is raised, and the
    data, which may be empty or ragged, is not read. *)
Theorem domain_guard_sentinel
    (alpha beta : R) (data : list R) (survivors : option (list R))
    (cohorts : list (list R)) :
  alpha <= 0 \/ beta <= 0 ->
  log_likelihood alpha beta data survivors = Ok (-1000) /\
  log_likelihood_multi_cohort alpha beta cohorts = Ok (-1000).
Proof.
  intros Hdom.
  assert (Hguard : Rleb alpha 0 || Rleb beta 0 = true).
  { destruct Hdom as [H | H].
    - rewrite (Rleb_true alpha 0 H). reflexivity.
    - rewrite (Rleb_true beta 0 H). apply orb_true_r. }
  unfold log_likelihood, log_likelihood_multi_cohort.
  rewrite Hguard. split; reflexivity.
Qed.

Lemma domain_guard_sentinel_witness :
  log_likelihood 0 1 [] None = Ok (-1000) /\
  log_likelihood_multi_cohort 0 1 [[]; [1]] = Ok (-1000).
Proof.
  apply (domain_guard_sentinel 0 1 [] None [[]; [1]]). left. lra.
Defined.

(** ** C6, C7: prediction and valuation make no checks *)

Lemma derl_delegates (hyp2f1 : R -> R -> R -> R -> result R)
    (alpha beta d n : R) :
  alpha + beta + n <> 0 -> 1 + d <> 0 ->
  derl hyp2f1 alpha beta d n
  = (h <- hyp2f1 1 (beta + n + 1) (alpha + beta + n + 1) (1 / (1 + d)) ;;
     Ok ((beta + n) / (alpha + beta + n) * h)).
Proof.
  intros Hden Hd. unfold derl, predicted_retention.
  rewrite !truediv_Ok by assumption. reflexivity.
Qed.

(** C6 as stated fails: with alpha = -1 <= 0, beta = 3 and t = 0,
    [predicted_retention] returns the number 3/2 and raises nothing, and
    neither does [derl] (at d = 1, with the evaluator that returns its last
    argument). *)
Lemma predicted_retention_negative_alpha :
  -1 <= 0 /\
  predicted_retention (-1) 3 0 = Ok (3 / 2) /\
  ~ raises (predicted_retention (-1) 3 0) /\
  ~ raises (derl (fun _ _ _ z => Ok z) (-1) 3 1 0).
Proof.
  assert (E : predicted_retention (-1) 3 0 = Ok (3 / 2)).
  { unfold predicted_retention. rewrite truediv_Ok by lra. f_equal. field. }
  split; [lra |]. split; [exact E |]. split.
  - intros [e He]. rewrite E in He. discriminate He.
  - intros [e He]. rewrite derl_delegates in He by lra. discriminate He.
Qed.

(** C6, amended: [predicted_retention] and [derl] do not look at the signs
    of alpha and beta.  Whenever alpha+beta+t is not 0, also for alpha <= 0
    or beta <= 0, [predicted_retention alpha beta t] returns
    (beta+t)/(alpha+beta+t) and [derl], for d other than -1, returns that
    number times the evaluator's value; when alpha+beta+t = 0 both raise
    [ZeroDivisionError]. *)
Theorem prediction_has_no_domain_check
    (hyp2f1 : R -> R -> R -> R -> result R) (alpha beta d t : R) :
  (alpha + beta + t <> 0 ->
     predicted_retention alpha beta t = Ok ((beta + t) / (alpha + beta + t)) /\
     (d <> -1 ->
        derl hyp2f1 alpha beta d t
        = (h <- hyp2f1 1 (beta + t + 1) (alpha + beta + t + 1) (1 / (1 + d)) ;;
           Ok ((beta + t) / (alpha + beta + t) * h)))) /\
  (alpha + beta + t = 0 ->
     predicted_retention alpha beta t = Raise ZeroDivisionError /\
     derl hyp2f1 alpha beta d t = Raise ZeroDivisionError).
Proof.
  split.
  - intros Hden. split.
    + unfold predicted_retention. apply truediv_Ok, Hden.
    + intros Hd. apply derl_delegates; [exact Hden | lra].
  - intros Hden. unfold derl, predicted_retention.
    rewrite Hden, truediv_zero. split; reflexivity.
Qed.

Lemma prediction_has_no_domain_check_witness :
  predicted_retention (-1) 3 0 = Ok ((3 + 0) / (-1 + 3 + 0)) /\
  derl (fun _ _ _ z => Ok z) (-1) 3 1 0
  = (h <- Ok (1 / (1 + 1)) ;; Ok ((3 + 0) / (-1 + 3 + 0) * h)).
Proof.
  destruct (prediction_has_no_domain_check (fun _ _ _ z => Ok z) (-1) 3 1 0)
    as [Hok _].
  destruct Hok as [Hr Hd]; [lra |].
  split; [exact Hr | apply Hd; lra].
Defined.

(** C7 as stated fails: [derl] does not reject a non-positive discount
    rate.  With d = -1/2 it hands 1/(1+d) = 2 to the evaluator and returns
    the product; here the evaluator is the one that returns its last
    argument. *)
Lemma derl_accepts_negative_discount :
  - (1 / 2) <= 0 /\
  derl (fun _ _ _ z => Ok z) 1 1 (- (1 / 2)) 0 = Ok (1 / 2 * 2) /\
  ~ raises (derl (fun _ _ _ z => Ok z) 1 1 (- (1 / 2)) 0).
Proof.
  assert (E : derl (fun _ _ _ z => Ok z) 1 1 (- (1 / 2)) 0 = Ok (1 / 2 * 2)).
  { rewrite derl_delegates by lra. cbn [bind]. f_equal. field. }
  split; [lra |]. split; [exact E |].
  intros [e He]. rewrite E in He. discriminate He.
Qed.

(** C7, amended: for alpha > 0, beta > 0 and n >= 0, [derl] makes no check
    of d.  For every d other than -1, positive or not, it returns
    [predicted_retention alpha beta n] times the value of the evaluator at
    (1, beta+n+1, alpha+beta+n+1, 1/(1+d)), or the evaluator's error; at
    d = -1 the division 1/(1+d) raises [ZeroDivisionError]. *)
Theorem derl_formula
    (hyp2f1 : R -> R -> R -> R -> result R) (alpha beta d n : R) :
  0 < alpha -> 0 < beta -> 0 <= n ->
  exists r,
    predicted_retention alpha beta n = Ok r /\
    (d <> -1 ->
       derl hyp2f1 alpha beta d n
       = (h <- hyp2f1 1 (beta + n + 1) (alpha + beta + n + 1) (1 / (1 + d)) ;;
          Ok (r * h))) /\
    (d = -1 -> derl hyp2f1 alpha beta d n = Raise ZeroDivisionError).
Proof.
  intros Ha Hb Hn. exists (retention alpha beta n).
  split; [apply predicted_retention_Ok; assumption |].
  split.
  - intros Hd. unfold retention. apply derl_delegates; lra.
  - intros Hd. unfold derl.
    rewrite (predicted_retention_Ok alpha beta Ha Hb n Hn), bind_Ok.
    replace (1 + d) with 0 by lra. rewrite truediv_zero. reflexivity.
Qed.

Lemma derl_formula_witness :
  exists r,
    predicted_retention 1 1 0 = Ok r /\
    (- (1 / 2) <> -1 ->
       derl (fun _ _ _ z => Ok z) 1 1 (- (1 / 2)) 0
       = (h <- Ok (1 / (1 + - (1 / 2))) ;; Ok (r * h))) /\
    (- (1 / 2) = -1 ->
       derl (fun _ _ _ z => Ok z) 1 1 (- (1 / 2)) 0 = Raise ZeroDivisionError).
Proof.
  apply (derl_formula (fun _ _ _ z => Ok z) 1 1 (- (1 / 2)) 0); lra.
Defined.

(** ** C2: the single-cohort log-likelihood *)

(** C2 as stated fails: for alpha = beta = 1 and obs = [1/2; 1/4], a series
    of length 2 with values in (0,1], [log_likelihood] does not return the
    formula whose tail term is taken at the survivor value of index
    n-2 = 0. *)
Lemma log_likelihood_tail_is_not_at_n_minus_2 :
  Forall (fun x => 0 < x <= 1) [1 / 2; 1 / 4] /\
  log_likelihood 1 1 [1 / 2; 1 / 4] None
  <> Ok (single_cohort_formula 1 1 [1 / 2; 1 / 4] (2 - 2)).
Proof.
  split.
  { repeat constructor; lra. }
  rewrite log_likelihood_Ok by (lra || discriminate).
  intros E. injection E as E. unfold single_cohort_formula in E.
  apply Rplus_eq_reg_l in E.
  cbn [length Nat.sub nth] in E.
  apply Rmult_eq_reg_l in E; [| lra].
  assert (H0 : 0 < surv 1 1 0) by (apply surv_pos; lra).
  assert (H1 : 0 < surv 1 1 1) by (apply surv_pos; lra).
  apply ln_inv in E; [| exact H1 | exact H0].
  rewrite surv_S in E.
  assert (Hc : 0 < churn 1 1 1) by (apply churn_pos; lra).
  lra.
Qed.

(** ** C3: the multi-cohort log-likelihood *)

(** C3 as stated fails, in two ways, on datasets of non-empty cohorts.
    The sequence is sized to the first cohort, not to the longest: on
    [[5; 4]; [5; 4; 3; 2]] the second cohort reads P(T=2) past its end.
    And the tail term reads S(cohorts_total - i - 1): on [[5]; [5]] the
    first cohort asks for S(1) of a one-element sequence.  Both calls
    raise [IndexError] instead of returning the sum. *)
Lemma log_likelihood_multi_cohort_index_errors :
  log_likelihood_multi_cohort 1 1 [[5; 4]; [5; 4; 3; 2]] = Raise IndexError /\
  log_likelihood_multi_cohort 1 1 [[5]; [5]] = Raise IndexError.
Proof.
  assert (H1 : 0 < 1) by lra.
  split.
  - unfold log_likelihood_multi_cohort. rewrite guard_passes by lra.
    change (getitem [[5; 4]; [5; 4; 3; 2]] 0) with (Ok [5; 4]).
    rewrite bind_Ok, generate_probabilities_Ok by lra.
    rewrite bind_Ok. cbv zeta.
    change (Z.to_nat (Z.max (len [5; 4]) 1)) with 2%nat.
    change (len [[5; 4]; [5; 4; 3; 2]]) with (Z.of_nat 2).
    change (enumerate [[5; 4]; [5; 4; 3; 2]])
      with [(Z.of_nat 0, [5; 4]); (1%Z, [5; 4; 3; 2])].
    cbn [foldM].
    rewrite cohort_body_Ok; [| lra | lra | cbn; lia | lia | cbn; lia].
    rewrite bind_Ok. unfold cohort_body.
    change (range 0 (len [5; 4; 3; 2] - 1)) with [0%Z; 1%Z; 2%Z].
    cbn [mapM churn_seq seq map].
    change (getitem [5; 4; 3; 2] 0) with (Ok 5).
    change (getitem [5; 4; 3; 2] (0 + 1)) with (Ok 4).
    change (getitem [5; 4; 3; 2] 1) with (Ok 4).
    change (getitem [5; 4; 3; 2] (1 + 1)) with (Ok 3).
    change (getitem [5; 4; 3; 2] 2) with (Ok 3).
    change (getitem [5; 4; 3; 2] (2 + 1)) with (Ok 2).
    change (getitem [churn 1 1 0; churn 1 1 1] 0) with (Ok (churn 1 1 0)).
    change (getitem [churn 1 1 0; churn 1 1 1] 1) with (Ok (churn 1 1 1)).
    change (getitem [churn 1 1 0; churn 1 1 1] 2) with (@Raise R IndexError).
    rewrite !bind_Ok.
    rewrite !log_Ok by (apply churn_pos; lra).
    reflexivity.
  - unfold log_likelihood_multi_cohort. rewrite guard_passes by lra.
    change (getitem [[5]; [5]] 0) with (Ok [5]).
    rewrite bind_Ok, generate_probabilities_Ok by lra.
    rewrite bind_Ok. cbv zeta.
    change (enumerate [[5]; [5]]) with [(0%Z, [5]); (1%Z, [5])].
    cbn [foldM]. unfold cohort_body at 1.
    change (range 0 (len [5] - 1)) with (@nil Z).
    cbn [mapM]. rewrite bind_Ok.
    change (getitem [5] (-1)) with (Ok 5). rewrite bind_Ok.
    rewrite survivor_out; [reflexivity |].
    unfold len. rewrite length_churn_seq. cbn. lia.
Qed.

(** * Further properties of the functions *)

(** ** Sums, slices and indexing *)

Lemma sum_cons (a : R) (l : list R) : sum (a :: l) = a + sum l.
Proof.
  change (a :: l) with ([a] ++ l). rewrite sum_app. unfold sum. cbn. lra.
Qed.

Lemma sum_scale (k : R) (l : list R) : sum (map (Rmult k) l) = k * sum l.
Proof.
  induction l as [| a l IH].
  - unfold sum. cbn. ring.
  - cbn [map]. rewrite !sum_cons, IH. ring.
Qed.

Lemma getitem_nonneg_inv {A : Type} (l : list A) (i : Z) (a : A) :
  (0 <= i)%Z -> getitem l i = Ok a -> nth_error l (Z.to_nat i) = Some a.
Proof.
  intros Hi. unfold getitem.
  assert (E : (i <? 0)%Z = false) by (apply Z.ltb_ge; lia).
  rewrite E. cbv zeta. rewrite E.
  destruct (nth_error l (Z.to_nat i)) as [b |]; intros H.
  - injection H as H. subst b. reflexivity.
  - discriminate H.
Qed.

Lemma nth_map_seq (f : nat -> R) (n k : nat) :
  (k < n)%nat -> nth k (map f (seq 0 n)) 0 = f k.
Proof.
  intros Hk.
  rewrite (nth_indep _ 0 (f 0%nat)) by (rewrite length_map, length_seq; lia).
  rewrite map_nth, seq_nth by lia. reflexivity.
Qed.

Lemma map_nth_seq (l : list R) :
  map (fun i => nth i l 0) (seq 0 (length l)) = l.
Proof.
  induction l as [| a l IH].
  - reflexivity.
  - cbn [length seq map nth]. f_equal.
    rewrite <- seq_shift, map_map. exact IH.
Qed.

(** The rates of a series add up to 1 minus its last value. *)
Lemma sum_rates (data : list R) (m : nat) :
  sum (map (rate data) (seq 0 (S m))) = 1 - nth m data 0.
Proof.
  induction m as [| m IH].
  - unfold sum. cbn. lra.
  - rewrite (seq_S (S m)), map_app, sum_app, IH.
    unfold sum. cbn. lra.
Qed.

(** ** [survivor_rates] *)

(** X1: [survivor_rates] never raises and returns one rate per
    observation; on a series whose last value [data[-1]] exists, the rates
    and that last value add up to exactly 1. *)
Theorem survivor_rates_add_up (data : list R) :
  exists rates,
    survivor_rates data = Ok rates /\
    len rates = len data /\
    forall last, getitem data (-1) = Ok last -> sum rates + last = 1.
Proof.
  exists (map (rate data) (seq 0 (length data))).
  split; [apply survivor_rates_Ok |]. split.
  { unfold len. rewrite length_map, length_seq. reflexivity. }
  intros last Hlast. destruct data as [| d data].
  - rewrite getitem_empty in Hlast. discriminate Hlast.
  - rewrite getitem_minus_one in Hlast by discriminate.
    replace (length (d :: data) - 1)%nat with (length data) in Hlast
      by (cbn [length]; lia).
    assert (E : last = nth (length data) (d :: data) 0) by congruence.
    change (length (d :: data)) with (S (length data)).
    rewrite sum_rates, E. lra.
Qed.

Lemma survivor_rates_add_up_witness :
  exists rates,
    survivor_rates [1 / 2; 1 / 4] = Ok rates /\
    len rates = len [1 / 2; 1 / 4] /\
    sum rates + 1 / 4 = 1.
Proof.
  destruct (survivor_rates_add_up [1 / 2; 1 / 4]) as [rates [H1 [H2 H3]]].
  exists rates. split; [exact H1 |]. split; [exact H2 |].
  apply H3. reflexivity.
Defined.

(** ** Size and order of the generated values *)

Lemma nth_error_map_seq (f : nat -> R) (n k : nat) (v : R) :
  nth_error (map f (seq 0 n)) k = Some v -> v = f k /\ (k < n)%nat.
Proof.
  intros H.
  assert (Hk : (k < length (map f (seq 0 n)))%nat)
    by (apply nth_error_Some; rewrite H; discriminate).
  rewrite length_map, length_seq in Hk.
  split; [| exact Hk].
  rewrite nth_error_map, nth_error_seq in H.
  replace (k <? n)%nat with true in H by (symmetry; apply Nat.ltb_lt; exact Hk).
  cbn in H. congruence.
Qed.

Lemma firstn_map_seq (f : nat -> R) (n m : nat) :
  (n <= m)%nat -> firstn n (map f (seq 0 m)) = map f (seq 0 n).
Proof.
  intros H. rewrite firstn_map. f_equal.
  generalize 0%nat as a. revert m H.
  induction n as [| n IH]; intros m H a.
  - reflexivity.
  - destruct m as [| m]; [lia |]. cbn [seq firstn]. f_equal.
    apply IH. lia.
Qed.

Section PositiveShapeOrder.

Variables alpha beta : R.
Hypothesis alpha_pos : 0 < alpha.
Hypothesis beta_pos : 0 < beta.

Lemma retention_complement (t : R) :
  0 <= t -> retention alpha beta t = 1 - alpha / (alpha + beta + t).
Proof. intros Ht. unfold retention. field. lra. Qed.

Lemma retention_bounds (t : R) : 0 <= t -> 0 < retention alpha beta t < 1.
Proof.
  intros Ht. split.
  - unfold retention. apply Rdiv_lt_0_compat; lra.
  - rewrite retention_complement by exact Ht.
    assert (0 < alpha / (alpha + beta + t)) by (apply Rdiv_lt_0_compat; lra).
    lra.
Qed.

Lemma retention_increasing (t t' : R) :
  0 <= t -> t < t' -> retention alpha beta t < retention alpha beta t'.
Proof.
  intros Ht Hlt. rewrite !retention_complement by lra.
  assert (/ (alpha + beta + t') < / (alpha + beta + t)).
  { apply Rinv_lt_contravar; [apply Rmult_lt_0_compat; lra | lra]. }
  assert (alpha * / (alpha + beta + t') < alpha * / (alpha + beta + t))
    by (apply Rmult_lt_compat_l; assumption).
  unfold Rdiv. lra.
Qed.

Lemma churn_decreasing (t : nat) : churn alpha beta (S t) < churn alpha beta t.
Proof.
  pose proof (churn_pos alpha beta alpha_pos beta_pos t) as Hp.
  pose proof (denominator_pos alpha beta alpha_pos beta_pos (S t)) as Hd.
  cbn [churn].
  replace ((beta + INR (S t) - 1) / (alpha + beta + INR (S t)))
    with (1 - (alpha + 1) / (alpha + beta + INR (S t))) by (field; lra).
  assert (0 < (alpha + 1) / (alpha + beta + INR (S t)))
    by (apply Rdiv_lt_0_compat; lra).
  nra.
Qed.

Lemma churn_below_one (t : nat) : churn alpha beta t < 1.
Proof.
  induction t as [| t IH].
  - cbn [churn].
    replace (alpha / (alpha + beta)) with (1 - beta / (alpha + beta))
      by (field; lra).
    assert (0 < beta / (alpha + beta)) by (apply Rdiv_lt_0_compat; lra).
    lra.
  - pose proof (churn_decreasing t). lra.
Qed.

Lemma survival_decreasing (t : nat) :
  survival alpha beta (S t) < survival alpha beta t.
Proof.
  pose proof (survival_pos alpha beta alpha_pos beta_pos t) as Hp.
  pose proof (retention_bounds (INR (S t)) (pos_INR (S t))) as Hr.
  cbn [survival]. nra.
Qed.

Lemma survival_below_one (t : nat) : survival alpha beta t < 1.
Proof.
  induction t as [| t IH].
  - cbn [survival]. apply (retention_bounds 0). lra.
  - pose proof (survival_decreasing t). lra.
Qed.

(** The rates of the survival curve are the churn probabilities. *)
Lemma rate_survival_seq (n t : nat) :
  (t < n)%nat -> rate (survival_seq alpha beta n) t = churn alpha beta t.
Proof.
  intros Ht. unfold survival_seq. destruct t as [| t]; cbn [rate].
  - rewrite nth_map_seq by lia.
    rewrite <- (surv_is_survival alpha beta alpha_pos beta_pos).
    unfold surv. cbn [sum_f_R0]. lra.
  - rewrite !nth_map_seq by lia.
    rewrite <- !(surv_is_survival alpha beta alpha_pos beta_pos).
    rewrite surv_S. lra.
Qed.

End PositiveShapeOrder.

(** X3: in exact arithmetic (numbers as real numbers, no rounding), for
    alpha, beta > 0 every value of [generate_probabilities] lies strictly
    between 0 and 1, and each value is strictly smaller than the one
    before it. *)
Theorem churn_probabilities_decrease (alpha beta : R) (x : Z) :
  0 < alpha -> 0 < beta ->
  exists p,
    generate_probabilities alpha beta x = Ok p /\
    (forall v, In v p -> 0 < v < 1) /\
    (forall t v w, (0 <= t)%Z ->
       getitem p t = Ok v -> getitem p (t + 1) = Ok w -> w < v).
Proof.
  intros Ha Hb. eexists. split; [apply generate_probabilities_Ok; assumption |].
  split.
  - intros v Hv. unfold churn_seq in Hv. apply in_map_iff in Hv.
    destruct Hv as [k [Hk _]]. subst v. split.
    + apply churn_pos; assumption.
    + apply churn_below_one; assumption.
  - intros t v w Ht Hv Hw.
    apply getitem_nonneg_inv in Hv; [| lia].
    apply getitem_nonneg_inv in Hw; [| lia].
    apply nth_error_map_seq in Hv. apply nth_error_map_seq in Hw.
    destruct Hv as [Hv _]. destruct Hw as [Hw _]. subst v w.
    replace (Z.to_nat (t + 1)) with (S (Z.to_nat t)) by lia.
    apply churn_decreasing; assumption.
Qed.

Lemma churn_probabilities_decrease_witness :
  exists p,
    generate_probabilities 1 1 3 = Ok p /\
    (forall v, In v p -> 0 < v < 1) /\
    (forall t v w, (0 <= t)%Z ->
       getitem p t = Ok v -> getitem p (t + 1) = Ok w -> w < v).
Proof.
  apply (churn_probabilities_decrease 1 1 3); lra.
Defined.

(** X4: in exact arithmetic (numbers as real numbers, no rounding), for
    alpha, beta > 0 every value of [predicted_survival] lies strictly
    between 0 and 1, and each value is strictly smaller than the one
    before it. *)
Theorem predicted_survival_decreases (alpha beta : R) (x : Z) :
  0 < alpha -> 0 < beta ->
  exists s,
    predicted_survival alpha beta x = Ok s /\
    (forall v, In v s -> 0 < v < 1) /\
    (forall t v w, (0 <= t)%Z ->
       getitem s t = Ok v -> getitem s (t + 1) = Ok w -> w < v).
Proof.
  intros Ha Hb. eexists. split; [apply predicted_survival_Ok; assumption |].
  split.
  - intros v Hv. unfold survival_seq in Hv. apply in_map_iff in Hv.
    destruct Hv as [k [Hk _]]. subst v. split.
    + apply survival_pos; assumption.
    + apply survival_below_one; assumption.
  - intros t v w Ht Hv Hw.
    apply getitem_nonneg_inv in Hv; [| lia].
    apply getitem_nonneg_inv in Hw; [| lia].
    apply nth_error_map_seq in Hv. apply nth_error_map_seq in Hw.
    destruct Hv as [Hv _]. destruct Hw as [Hw _]. subst v w.
    replace (Z.to_nat (t + 1)) with (S (Z.to_nat t)) by lia.
    apply survival_decreasing; assumption.
Qed.

Lemma predicted_survival_decreases_witness :
  exists s,
    predicted_survival 1 1 3 = Ok s /\
    (forall v, In v s -> 0 < v < 1) /\
    (forall t v w, (0 <= t)%Z ->
       getitem s t = Ok v -> getitem s (t + 1) = Ok w -> w < v).
Proof.
  apply (predicted_survival_decreases 1 1 3); lra.
Defined.

(** X5: the horizon only cuts the sequences.  For alpha, beta > 0 and
    horizons n <= m, [generate_probabilities alpha beta n] is the slice
    [q[:len(p)]] of the result q for m, and likewise for
    [predicted_survival]. *)
Theorem horizon_only_truncates (alpha beta : R) (n m : Z) :
  0 < alpha -> 0 < beta -> (n <= m)%Z ->
  exists p q s r,
    generate_probabilities alpha beta n = Ok p /\
    generate_probabilities alpha beta m = Ok q /\
    p = firstn (Z.to_nat (len p)) q /\
    predicted_survival alpha beta n = Ok s /\
    predicted_survival alpha beta m = Ok r /\
    s = firstn (Z.to_nat (len s)) r.
Proof.
  intros Ha Hb Hnm.
  exists (churn_seq alpha beta (Z.to_nat (Z.max n 1))).
  exists (churn_seq alpha beta (Z.to_nat (Z.max m 1))).
  exists (survival_seq alpha beta (Z.to_nat (Z.max n 1))).
  exists (survival_seq alpha beta (Z.to_nat (Z.max m 1))).
  rewrite !generate_probabilities_Ok, !predicted_survival_Ok by assumption.
  unfold len, churn_seq, survival_seq.
  rewrite !length_map, !length_seq, !Nat2Z.id.
  rewrite !firstn_map_seq by lia.
  repeat split; reflexivity.
Qed.

Lemma horizon_only_truncates_witness :
  exists p q s r,
    generate_probabilities 1 1 2 = Ok p /\
    generate_probabilities 1 1 5 = Ok q /\
    p = firstn (Z.to_nat (len p)) q /\
    predicted_survival 1 1 2 = Ok s /\
    predicted_survival 1 1 5 = Ok r /\
    s = firstn (Z.to_nat (len s)) r.
Proof.
  apply (horizon_only_truncates 1 1 2 5); [lra | lra | lia].
Defined.

(** X6: for alpha, beta > 0 the predicted survival curve is the survivor
    function of the churn probabilities: element t of [predicted_survival
    alpha beta x] equals [survivor p t] on p = [generate_probabilities
    alpha beta x], for every index t of the curve. *)
Theorem predicted_survival_is_survivor (alpha beta : R) (x : Z) :
  0 < alpha -> 0 < beta ->
  exists p s,
    generate_probabilities alpha beta x = Ok p /\
    predicted_survival alpha beta x = Ok s /\
    forall t, (0 <= t < len s)%Z ->
      exists v, getitem s t = Ok v /\ survivor p t = Ok v.
Proof.
  intros Ha Hb.
  exists (churn_seq alpha beta (Z.to_nat (Z.max x 1))).
  exists (survival_seq alpha beta (Z.to_nat (Z.max x 1))).
  split; [apply generate_probabilities_Ok; assumption |].
  split; [apply predicted_survival_Ok; assumption |].
  intros t Ht. unfold len, survival_seq in Ht.
  rewrite length_map, length_seq in Ht.
  exists (survival alpha beta (Z.to_nat t)). split.
  - rewrite <- (Z2Nat.id t) at 1 by lia. apply getitem_nat.
    unfold survival_seq.
    rewrite nth_error_map, nth_error_seq.
    replace (Z.to_nat t <? Z.to_nat (Z.max x 1))%nat with true
      by (symmetry; apply Nat.ltb_lt; lia).
    reflexivity.
  - rewrite <- (Z2Nat.id t) at 1 by lia.
    rewrite survivor_churn_seq by lia.
    rewrite (surv_is_survival alpha beta Ha Hb). reflexivity.
Qed.

Lemma predicted_survival_is_survivor_witness :
  exists p s,
    generate_probabilities 1 1 3 = Ok p /\
    predicted_survival 1 1 3 = Ok s /\
    forall t, (0 <= t < len s)%Z ->
      exists v, getitem s t = Ok v /\ survivor p t = Ok v.
Proof.
  apply (predicted_survival_is_survivor 1 1 3); lra.
Defined.

(** X7: for alpha, beta > 0, [survivor_rates] applied to the predicted
    survival curve gives back the churn probabilities:
    [survivor_rates(predicted_survival(alpha, beta, x))] equals
    [generate_probabilities(alpha, beta, x)]. *)
Theorem survivor_rates_of_predicted_survival (alpha beta : R) (x : Z) :
  0 < alpha -> 0 < beta ->
  exists s p,
    predicted_survival alpha beta x = Ok s /\
    generate_probabilities alpha beta x = Ok p /\
    survivor_rates s = Ok p.
Proof.
  intros Ha Hb.
  exists (survival_seq alpha beta (Z.to_nat (Z.max x 1))).
  exists (churn_seq alpha beta (Z.to_nat (Z.max x 1))).
  split; [apply predicted_survival_Ok; assumption |].
  split; [apply generate_probabilities_Ok; assumption |].
  rewrite survivor_rates_Ok. f_equal.
  unfold survival_seq at 2. rewrite length_map, length_seq.
  unfold churn_seq. apply map_ext_in. intros t Ht. apply in_seq in Ht.
  apply rate_survival_seq; [assumption | assumption | lia].
Qed.

Lemma survivor_rates_of_predicted_survival_witness :
  exists s p,
    predicted_survival 1 1 3 = Ok s /\
    generate_probabilities 1 1 3 = Ok p /\
    survivor_rates s = Ok p.
Proof.
  apply (survivor_rates_of_predicted_survival 1 1 3); lra.
Defined.

(** ** [predicted_retention] *)

(** X8: in exact arithmetic (numbers as real numbers, no rounding), for
    alpha, beta > 0 and t >= 0 the predicted retention lies strictly
    between 0 and 1 and is strictly increasing in t. *)
Theorem predicted_retention_increases (alpha beta t t' : R) :
  0 < alpha -> 0 < beta -> 0 <= t -> t < t' ->
  exists r r',
    predicted_retention alpha beta t = Ok r /\
    predicted_retention alpha beta t' = Ok r' /\
    0 < r /\ r < r' /\ r' < 1.
Proof.
  intros Ha Hb Ht Hlt.
  exists (retention alpha beta t), (retention alpha beta t').
  rewrite !predicted_retention_Ok by lra.
  split; [reflexivity |]. split; [reflexivity |].
  pose proof (retention_bounds alpha beta Ha Hb t Ht).
  assert (Ht' : 0 <= t') by lra.
  pose proof (retention_bounds alpha beta Ha Hb t' Ht').
  pose proof (retention_increasing alpha beta Ha Hb t t' Ht Hlt).
  lra.
Qed.

Lemma predicted_retention_increases_witness :
  exists r r',
    predicted_retention 1 1 0 = Ok r /\
    predicted_retention 1 1 1 = Ok r' /\
    0 < r /\ r < r' /\ r' < 1.
Proof.
  apply (predicted_retention_increases 1 1 0 1); lra.
Defined.

(** X9: in exact arithmetic (numbers as real numbers, no rounding), for
    alpha, beta > 0 the predicted retention tends to 1: for every
    eps > 0, from t = alpha/eps on it lies strictly between 1 - eps and
    1. *)
Theorem predicted_retention_tends_to_one (alpha beta eps t : R) :
  0 < alpha -> 0 < beta -> 0 < eps -> alpha / eps <= t ->
  exists r, predicted_retention alpha beta t = Ok r /\ 1 - eps < r < 1.
Proof.
  intros Ha Hb He Ht.
  assert (Hq : 0 < alpha / eps) by (apply Rdiv_lt_0_compat; lra).
  assert (Ht0 : 0 <= t) by lra.
  exists (retention alpha beta t).
  split; [apply predicted_retention_Ok; assumption |].
  split; [| apply retention_bounds; assumption].
  rewrite retention_complement by assumption.
  assert (Hle : alpha <= eps * t).
  { replace alpha with (eps * (alpha / eps)) at 1 by (field; lra).
    apply Rmult_le_compat_l; lra. }
  assert (Hlt : alpha / (alpha + beta + t) < eps).
  { apply (Rmult_lt_reg_r (alpha + beta + t)); [lra |].
    unfold Rdiv. rewrite Rmult_assoc, Rinv_l by lra. nra. }
  lra.
Qed.

Lemma predicted_retention_tends_to_one_witness :
  exists r, predicted_retention 1 1 100 = Ok r /\ 1 - 1 / 10 < r < 1.
Proof.
  apply (predicted_retention_tends_to_one 1 1 (1 / 10) 100); lra.
Defined.

(** ** Division by zero in the two generators *)

(** The loop [for t in range(1, x): s.append(coef(t) * s[t-1])] when
    [coef] is only known to succeed on the indices it is called with. *)
Lemma recurrence_loop_upto (coef : Z -> result R) (f : nat -> R) (k : nat) :
  forall a,
    (forall i, (a < i <= a + k)%nat ->
       exists c, coef (Z.of_nat i) = Ok c /\ f i = c * f (i - 1)%nat) ->
    foldM (fun t s =>
             c <- coef t ;;
             prev <- getitem s (t - 1) ;;
             Ok (s ++ [c * prev]))
          (iota (Z.of_nat (S a)) k) (map f (seq 0 (S a)))
    = Ok (map f (seq 0 (S a + k))).
Proof.
  induction k as [| k IH]; intros a Hrec.
  - rewrite Nat.add_0_r. reflexivity.
  - cbn [iota foldM].
    destruct (Hrec (S a)) as [c [Hc Hf]]; [lia |].
    rewrite Hc, bind_Ok.
    replace (Z.of_nat (S a) - 1)%Z with (Z.of_nat a) by lia.
    rewrite (getitem_nat _ a (f a)).
    2:{ rewrite nth_error_map, nth_error_seq.
        replace (a <? S a)%nat with true by (symmetry; apply Nat.ltb_lt; lia).
        reflexivity. }
    rewrite !bind_Ok.
    replace (S a - 1)%nat with a in Hf by lia. rewrite <- Hf.
    replace (map f (seq 0 (S a)) ++ [f (S a)]) with (map f (seq 0 (S (S a))))
      by (rewrite (seq_S (S a)), map_app; reflexivity).
    replace (Z.of_nat (S a) + 1)%Z with (Z.of_nat (S (S a))) by lia.
    rewrite IH by (intros i Hi; apply Hrec; lia).
    replace (S (S a) + k)%nat with (S a + S k)%nat by lia. reflexivity.
Qed.

(** The same loop when [coef] raises at one of the indices. *)
Lemma recurrence_loop_raises (coef : Z -> result R) (f : nat -> R) (e : exn)
    (k : nat) :
  forall a,
    (forall i, (a < i <= a + k)%nat ->
       (exists c, coef (Z.of_nat i) = Ok c /\ f i = c * f (i - 1)%nat) \/
       coef (Z.of_nat i) = Raise e) ->
    (exists i, (a < i <= a + k)%nat /\ coef (Z.of_nat i) = Raise e) ->
    foldM (fun t s =>
             c <- coef t ;;
             prev <- getitem s (t - 1) ;;
             Ok (s ++ [c * prev]))
          (iota (Z.of_nat (S a)) k) (map f (seq 0 (S a)))
    = Raise e.
Proof.
  induction k as [| k IH]; intros a Hall [i [Hi Hraise]].
  - lia.
  - cbn [iota foldM].
    destruct (Hall (S a)) as [[c [Hc Hf]] | Hr]; [lia | |].
    + rewrite Hc, bind_Ok.
      replace (Z.of_nat (S a) - 1)%Z with (Z.of_nat a) by lia.
      rewrite (getitem_nat _ a (f a)).
      2:{ rewrite nth_error_map, nth_error_seq.
          replace (a <? S a)%nat with true
            by (symmetry; apply Nat.ltb_lt; lia).
          reflexivity. }
      rewrite !bind_Ok.
      replace (S a - 1)%nat with a in Hf by lia. rewrite <- Hf.
      replace (map f (seq 0 (S a)) ++ [f (S a)])
        with (map f (seq 0 (S (S a))))
        by (rewrite (seq_S (S a)), map_app; reflexivity).
      replace (Z.of_nat (S a) + 1)%Z with (Z.of_nat (S (S a))) by lia.
      apply IH.
      * intros j Hj. apply Hall. lia.
      * exists i. split; [| exact Hraise].
        assert (i <> S a) by (intros E; subst i; congruence). lia.
    + rewrite Hr. reflexivity.
Qed.

Section AnyShape.

Variables alpha beta : R.

(** The coefficient of [generate_probabilities] at index [i >= 1]. *)
Lemma churn_coefficient (i : nat) :
  (0 < i)%nat ->
  (exists c,
     truediv (beta + IZR (Z.of_nat i) - 1) (alpha + beta + IZR (Z.of_nat i))
     = Ok c /\
     churn alpha beta i = c * churn alpha beta (i - 1)) \/
  truediv (beta + IZR (Z.of_nat i) - 1) (alpha + beta + IZR (Z.of_nat i))
  = Raise ZeroDivisionError.
Proof.
  intros Hi. unfold truediv.
  destruct (Req_dec_T (alpha + beta + IZR (Z.of_nat i)) 0) as [E | N].
  - right. reflexivity.
  - left. eexists. split; [reflexivity |].
    destruct i as [| i]; [lia |].
    replace (S i - 1)%nat with i by lia.
    cbn [churn]. rewrite INR_IZR_INZ. reflexivity.
Qed.

(** The coefficient of [predicted_survival] at index [i >= 1]. *)
Lemma survival_coefficient (i : nat) :
  (0 < i)%nat ->
  (exists c,
     predicted_retention alpha beta (IZR (Z.of_nat i)) = Ok c /\
     survival alpha beta i = c * survival alpha beta (i - 1)) \/
  predicted_retention alpha beta (IZR (Z.of_nat i)) = Raise ZeroDivisionError.
Proof.
  intros Hi. unfold predicted_retention, truediv.
  destruct (Req_dec_T (alpha + beta + IZR (Z.of_nat i)) 0) as [E | N].
  - right. reflexivity.
  - left. eexists. split; [reflexivity |].
    destruct i as [| i]; [lia |].
    replace (S i - 1)%nat with i by lia.
    cbn [survival]. unfold retention. rewrite INR_IZR_INZ. reflexivity.
Qed.

Lemma coefficient_Ok {A : Type} (m : result A) (P : A -> Prop) :
  (exists c, m = Ok c /\ P c) \/ m = Raise ZeroDivisionError ->
  m <> Raise ZeroDivisionError ->
  exists c, m = Ok c /\ P c.
Proof. intros [H | H] N; [exact H | contradiction]. Qed.

Lemma truediv_raises (a b : R) :
  truediv a b = Raise ZeroDivisionError <-> b = 0.
Proof.
  unfold truediv. destruct (Req_dec_T b 0) as [E | N]; split; intros H.
  - exact E.
  - reflexivity.
  - discriminate H.
  - contradiction.
Qed.

(** Both generators succeed when no denominator alpha+beta+k, k < n, is
    zero, where n = max(x, 1). *)
Lemma generators_defined (x : Z) :
  (forall k, (k < Z.to_nat (Z.max x 1))%nat -> alpha + beta + INR k <> 0) ->
  generate_probabilities alpha beta x
  = Ok (churn_seq alpha beta (Z.to_nat (Z.max x 1))) /\
  predicted_survival alpha beta x
  = Ok (survival_seq alpha beta (Z.to_nat (Z.max x 1))).
Proof.
  intros Hden.
  assert (H0 : alpha + beta <> 0).
  { specialize (Hden 0%nat). cbn [INR] in Hden.
    intros E. apply Hden; [lia | lra]. }
  split.
  - unfold generate_probabilities.
    rewrite truediv_Ok by exact H0. rewrite bind_Ok.
    change [alpha / (alpha + beta)] with (map (churn alpha beta) (seq 0 1)).
    unfold range, churn_seq. change 1%Z with (Z.of_nat 1).
    rewrite (recurrence_loop_upto
               (fun t => truediv (beta + IZR t - 1) (alpha + beta + IZR t))).
    + replace (1 + Z.to_nat (x - Z.of_nat 1))%nat
        with (Z.to_nat (Z.max x 1)) by lia.
      reflexivity.
    + intros i Hi.
      apply (coefficient_Ok _ _ (churn_coefficient i ltac:(lia))).
      intros E. apply truediv_raises in E. rewrite <- INR_IZR_INZ in E.
      apply (Hden i); [lia | exact E].
  - unfold predicted_survival, predicted_retention at 1.
    rewrite truediv_Ok by lra. rewrite bind_Ok.
    change [(beta + 0) / (alpha + beta + 0)]
      with (map (survival alpha beta) (seq 0 1)).
    unfold range, survival_seq. change 1%Z with (Z.of_nat 1).
    rewrite (recurrence_loop_upto
               (fun t => predicted_retention alpha beta (IZR t))).
    + replace (1 + Z.to_nat (x - Z.of_nat 1))%nat
        with (Z.to_nat (Z.max x 1)) by lia.
      reflexivity.
    + intros i Hi.
      apply (coefficient_Ok _ _ (survival_coefficient i ltac:(lia))).
      intros E. apply truediv_raises in E. rewrite <- INR_IZR_INZ in E.
      apply (Hden i); [lia | exact E].
Qed.

(** Both generators raise [ZeroDivisionError] when one of these
    denominators is zero. *)
Lemma generators_raise (x : Z) (k : nat) :
  (k < Z.to_nat (Z.max x 1))%nat -> alpha + beta + INR k = 0 ->
  generate_probabilities alpha beta x = Raise ZeroDivisionError /\
  predicted_survival alpha beta x = Raise ZeroDivisionError.
Proof.
  intros Hk Hzero.
  unfold generate_probabilities, predicted_survival, predicted_retention at 1.
  destruct (Req_dec_T (alpha + beta) 0) as [E0 | N0].
  - rewrite E0. replace (0 + 0) with 0 by lra.
    rewrite !truediv_zero. split; reflexivity.
  - rewrite !truediv_Ok by lra. rewrite !bind_Ok.
    assert (Hk0 : (0 < k)%nat).
    { destruct k; [cbn [INR] in Hzero; exfalso; apply N0; lra | lia]. }
    assert (Hraise : truediv (beta + IZR (Z.of_nat k) - 1)
                             (alpha + beta + IZR (Z.of_nat k))
                     = Raise ZeroDivisionError).
    { apply truediv_raises. rewrite <- INR_IZR_INZ. exact Hzero. }
    assert (Hraise' : predicted_retention alpha beta (IZR (Z.of_nat k))
                      = Raise ZeroDivisionError).
    { unfold predicted_retention. apply truediv_raises.
      rewrite <- INR_IZR_INZ. exact Hzero. }
    unfold range. change 1%Z with (Z.of_nat 1). split.
    + change [alpha / (alpha + beta)] with (map (churn alpha beta) (seq 0 1)).
      apply (recurrence_loop_raises
               (fun t => truediv (beta + IZR t - 1) (alpha + beta + IZR t))).
      * intros i Hi. apply churn_coefficient. lia.
      * exists k. split; [lia | exact Hraise].
    + change [(beta + 0) / (alpha + beta + 0)]
        with (map (survival alpha beta) (seq 0 1)).
      apply (recurrence_loop_raises
               (fun t => predicted_retention alpha beta (IZR t))).
      * intros i Hi. apply survival_coefficient. lia.
      * exists k. split; [lia | exact Hraise'].
Qed.

(** A negative argument never reaches the base case of [probability]. *)
Lemma probability_negative (depth : nat) :
  forall t, (t < 0)%Z -> raises (probability depth alpha beta t).
Proof.
  induction depth as [| d IH]; intros t Ht.
  - exists RecursionError. reflexivity.
  - cbn [probability].
    destruct (Z.eqb_spec t 0) as [E | _]; [lia |].
    destruct (truediv (beta + IZR t - 1) (alpha + beta + IZR t)) as [c | e].
    + rewrite bind_Ok. destruct (IH (t - 1)%Z) as [e He]; [lia |].
      exists e. rewrite He. reflexivity.
    + exists e. reflexivity.
Qed.

End AnyShape.

(** X10: [generate_probabilities] and [predicted_survival] do not look at
    the signs of alpha and beta; what matters is the denominators
    alpha+beta+t for the integers 0 <= t < max(x, 1).  When none of them
    is zero both return a list of length max(x, 1); when one of them is
    zero both raise [ZeroDivisionError]. *)
Theorem generators_zero_division (alpha beta : R) (x : Z) :
  ((forall t, (0 <= t < Z.max x 1)%Z -> alpha + beta + IZR t <> 0) ->
     exists p s,
       generate_probabilities alpha beta x = Ok p /\
       predicted_survival alpha beta x = Ok s /\
       len p = Z.max x 1 /\ len s = Z.max x 1) /\
  ((exists t, (0 <= t < Z.max x 1)%Z /\ alpha + beta + IZR t = 0) ->
     generate_probabilities alpha beta x = Raise ZeroDivisionError /\
     predicted_survival alpha beta x = Raise ZeroDivisionError).
Proof.
  split.
  - intros Hden.
    destruct (generators_defined alpha beta x) as [Hp Hs].
    { intros k Hk. rewrite INR_IZR_INZ. apply Hden. lia. }
    eexists. eexists. split; [exact Hp |]. split; [exact Hs |].
    unfold len, churn_seq, survival_seq.
    rewrite !length_map, !length_seq. split; lia.
  - intros [t [Ht Hzero]].
    apply (generators_raise alpha beta x (Z.to_nat t)); [lia |].
    rewrite INR_IZR_INZ, Z2Nat.id by lia. exact Hzero.
Qed.

Lemma generators_zero_division_witness :
  (exists p s,
     generate_probabilities (-1) (1 / 2) 3 = Ok p /\
     predicted_survival (-1) (1 / 2) 3 = Ok s /\
     len p = Z.max 3 1 /\ len s = Z.max 3 1) /\
  generate_probabilities (-3) 1 3 = Raise ZeroDivisionError /\
  predicted_survival (-3) 1 3 = Raise ZeroDivisionError.
Proof.
  destruct (generators_zero_division (-1) (1 / 2) 3) as [Hok _].
  destruct (generators_zero_division (-3) 1 3) as [_ Herr].
  split.
  - apply Hok. intros t Ht.
    assert (Hc : t = 0%Z \/ t = 1%Z \/ t = 2%Z) by lia.
    destruct Hc as [E | [E | E]]; subst t; lra.
  - apply Herr. exists 2%Z. split; [lia | lra].
Defined.

(** ** The recursive [probability] *)

(** X11: [probability] never returns a value for a negative t, whatever
    the recursion depth allowed; and for alpha, beta > 0 and t >= 0 it
    raises [RecursionError] when the interpreter allows no more than t
    nested calls. *)
Theorem probability_failures (alpha beta : R) (t : Z) (depth : nat) :
  ((t < 0)%Z -> raises (probability depth alpha beta t)) /\
  (0 < alpha -> 0 < beta -> (0 <= t)%Z -> (depth <= Z.to_nat t)%nat ->
     probability depth alpha beta t = Raise RecursionError).
Proof.
  split; [apply probability_negative |].
  intros Ha Hb. revert t.
  induction depth as [| d IH]; intros t Ht Hd.
  - reflexivity.
  - cbn [probability].
    destruct (Z.eqb_spec t 0) as [E | _]; [lia |].
    rewrite truediv_Ok.
    2:{ assert (0 <= IZR t) by (apply IZR_le; lia). lra. }
    rewrite bind_Ok, IH by lia. reflexivity.
Qed.

Lemma probability_failures_witness :
  raises (probability 10 1 1 (-2)) /\
  probability 3 1 1 3 = Raise RecursionError.
Proof.
  destruct (probability_failures 1 1 (-2) 10) as [Hneg _].
  destruct (probability_failures 1 1 3 3) as [_ Hdepth].
  split.
  - apply Hneg. lia.
  - apply Hdepth; [lra | lra | lia | ].
    change (Z.to_nat 3) with 3%nat. lia.
Defined.

(** ** The single-cohort log-likelihood on arbitrary data *)

(** A comprehension raises at its first failing element. *)
Lemma mapM_raises {A B : Type} (f : A -> result B) (e : exn)
    (before after : list A) (a : A) :
  (forall a', In a' before -> exists b, f a' = Ok b) ->
  f a = Raise e ->
  mapM f (before ++ a :: after) = Raise e.
Proof.
  intros Hok Hraise. induction before as [| a0 before IH].
  - cbn [app mapM]. rewrite Hraise. reflexivity.
  - cbn [app mapM].
    destruct (Hok a0) as [b Hb]; [left; reflexivity |].
    rewrite Hb, bind_Ok, IH by (intros a' Ha'; apply Hok; right; exact Ha').
    reflexivity.
Qed.

Lemma mapM_map_seq_raises {B C : Type} (u : nat -> B) (f : B -> result C)
    (e : exn) (n count : nat) :
  (n < count)%nat ->
  (forall j, (j < n)%nat -> exists c, f (u j) = Ok c) ->
  f (u n) = Raise e ->
  mapM f (map u (seq 0 count)) = Raise e.
Proof.
  intros Hn Hok Hraise.
  replace count with (n + S (count - S n))%nat by lia.
  rewrite seq_app, map_app. cbn [seq map Nat.add].
  apply mapM_raises; [| exact Hraise].
  intros b Hb. apply in_map_iff in Hb. destruct Hb as [j [Hj Hin]].
  subst b. apply in_seq in Hin. apply Hok. lia.
Qed.

Lemma enumerate_nth (l : list R) :
  enumerate l = map (fun i => (Z.of_nat i, nth i l 0)) (seq 0 (length l)).
Proof.
  rewrite <- (map_nth_seq l) at 1. apply enumerate_map_seq.
Qed.

(** Weighted sums of negative numbers with non-negative weights. *)
Lemma weighted_sum_negative (w g : nat -> R) (l : list nat) :
  (forall t, In t l -> 0 <= w t /\ g t < 0) ->
  sum (map (fun t => w t * g t) l) <= 0 /\
  (sum (map (fun t => w t * g t) l) = 0 -> sum (map w l) = 0).
Proof.
  induction l as [| t l IH]; intros H.
  - unfold sum. cbn. split; lra.
  - cbn [map]. rewrite !sum_cons.
    destruct (H t (or_introl eq_refl)) as [Hw Hg].
    destruct IH as [IH1 IH2]; [intros t' Ht'; apply H; right; exact Ht' |].
    assert (Hwg : w t * g t <= 0) by nra.
    split; [lra |]. intros E.
    assert (E1 : w t * g t = 0) by lra.
    assert (E2 : sum (map (fun t0 => w t0 * g t0) l) = 0) by lra.
    rewrite (IH2 E2).
    assert (w t = 0) by nra. lra.
Qed.

Section PositiveShapeLikelihood.

Variables alpha beta : R.
Hypothesis alpha_pos : 0 < alpha.
Hypothesis beta_pos : 0 < beta.

Lemma ln_churn_negative (t : nat) : ln (churn alpha beta t) < 0.
Proof.
  rewrite <- ln_1. apply ln_increasing.
  - apply churn_pos; assumption.
  - apply churn_below_one; assumption.
Qed.

Lemma ln_surv_negative (t : nat) : ln (surv alpha beta t) < 0.
Proof.
  rewrite <- ln_1. apply ln_increasing.
  - apply surv_pos; assumption.
  - rewrite surv_is_survival by assumption.
    apply survival_below_one; assumption.
Qed.

(** [log_likelihood] with explicit survivors no longer than the data. *)
Lemma log_likelihood_explicit (data survivors : list R) :
  data <> [] -> (length survivors <= length data)%nat ->
  log_likelihood alpha beta data (Some survivors)
  = Ok (sum (map (fun t => nth t survivors 0 * ln (churn alpha beta t))
                 (seq 0 (length survivors)))
        + nth (length data - 1) data 0
          * ln (surv alpha beta (length data - 1))).
Proof.
  intros Hne Hlen.
  assert (Hn : (1 <= length data)%nat).
  { destruct data; [contradiction | cbn; lia]. }
  unfold log_likelihood.
  rewrite (guard_passes alpha beta alpha_pos beta_pos), bind_Ok.
  rewrite (generate_probabilities_Ok alpha beta alpha_pos beta_pos), bind_Ok.
  replace (Z.to_nat (Z.max (len data) 1)) with (length data)
    by (unfold len; lia).
  replace (len data - 1)%Z with (Z.of_nat (length data - 1))
    by (unfold len; lia).
  rewrite survivor_churn_seq by lia. rewrite bind_Ok.
  rewrite enumerate_nth.
  rewrite (mapM_map_Ok _ _
             (fun t => nth t survivors 0 * ln (churn alpha beta t))).
  2:{ intros t Ht. apply in_seq in Ht.
      rewrite getitem_churn_seq by lia.
      rewrite bind_Ok, log_Ok by (apply churn_pos; assumption). reflexivity. }
  rewrite bind_Ok, getitem_minus_one by exact Hne.
  rewrite bind_Ok, log_Ok by (apply surv_pos; assumption). reflexivity.
Qed.

(** [log_likelihood] on an empty series, or with more survivors than
    observations. *)
Lemma log_likelihood_index_error (data survivors : list R) :
  data = [] \/ (length data < length survivors)%nat ->
  log_likelihood alpha beta data (Some survivors) = Raise IndexError.
Proof.
  intros Hbad.
  unfold log_likelihood.
  rewrite (guard_passes alpha beta alpha_pos beta_pos), bind_Ok.
  rewrite (generate_probabilities_Ok alpha beta alpha_pos beta_pos), bind_Ok.
  set (n := Z.to_nat (Z.max (len data) 1)).
  assert (Hn : (1 <= n)%nat) by (subst n; lia).
  assert (Hsurv : exists s, survivor (churn_seq alpha beta n) (len data - 1)
                            = Ok s).
  { destruct data as [| d data].
    - exists (surv alpha beta 0). destruct n as [| n']; [lia |].
      unfold churn_seq. cbn [seq map].
      rewrite survivor_nonpositive by (unfold len; cbn; lia).
      unfold surv. reflexivity.
    - exists (surv alpha beta (length data)).
      replace (len (d :: data) - 1)%Z with (Z.of_nat (length data))
        by (unfold len; cbn [length]; lia).
      apply survivor_churn_seq. subst n. unfold len. cbn [length]. lia. }
  destruct Hsurv as [s Hs]. rewrite Hs, bind_Ok.
  rewrite enumerate_nth.
  destruct (le_lt_dec (length survivors) n) as [Hshort | Hlong].
  - rewrite (mapM_map_Ok _ _
               (fun t => nth t survivors 0 * ln (churn alpha beta t))).
    2:{ intros t Ht. apply in_seq in Ht.
        rewrite getitem_churn_seq by lia.
        rewrite bind_Ok, log_Ok by (apply churn_pos; assumption).
        reflexivity. }
    rewrite bind_Ok.
    destruct data as [| d data].
    + rewrite getitem_empty. reflexivity.
    + exfalso. destruct Hbad as [E | Hlt]; [discriminate E |].
      subst n. unfold len in Hshort. cbn [length] in *. lia.
  - rewrite (mapM_map_seq_raises _ _ IndexError n); [reflexivity | lia | |].
    + intros j Hj. rewrite getitem_churn_seq by lia.
      rewrite bind_Ok, log_Ok by (apply churn_pos; assumption).
      eexists. reflexivity.
    + rewrite getitem_out; [reflexivity |].
      unfold len. rewrite length_churn_seq. lia.
Qed.

End PositiveShapeLikelihood.

Lemma log_likelihood_precomputed (alpha beta : R) (data rates : list R) :
  survivor_rates data = Ok rates ->
  log_likelihood alpha beta data (Some rates)
  = log_likelihood alpha beta data None.
Proof.
  intros H. unfold log_likelihood. rewrite H. reflexivity.
Qed.

(** X14: in exact arithmetic (numbers as real numbers, no rounding), for
    alpha, beta > 0 the log-likelihood of a proper survival series is
    strictly negative: when no rate of [survivor_rates data] is negative
    and the last observation [data[-1]] is not negative, [log_likelihood
    alpha beta data] returns a number below 0. *)
Theorem log_likelihood_negative (alpha beta : R) (data rates : list R)
    (last : R) :
  0 < alpha -> 0 < beta ->
  survivor_rates data = Ok rates -> Forall (fun r => 0 <= r) rates ->
  getitem data (-1) = Ok last -> 0 <= last ->
  exists v, log_likelihood alpha beta data None = Ok v /\ v < 0.
Proof.
  intros Ha Hb Hrates Hpos Hlast Hlast0.
  assert (Hne : data <> []).
  { intros E. subst data. rewrite getitem_empty in Hlast. discriminate. }
  rewrite survivor_rates_Ok in Hrates. injection Hrates as Hrates.
  rewrite getitem_minus_one in Hlast by exact Hne.
  injection Hlast as Hlast.
  eexists. split; [apply log_likelihood_Ok; assumption |].
  unfold single_cohort_formula. rewrite Hlast.
  set (n := length data) in *.
  assert (Hn : (1 <= n)%nat).
  { subst n. destruct data; [contradiction | cbn; lia]. }
  destruct (weighted_sum_negative (rate data)
              (fun t => ln (churn alpha beta t)) (seq 0 n)) as [Hle Hzero].
  { intros t Ht. split.
    - rewrite Forall_forall in Hpos. apply Hpos. subst rates.
      apply in_map. exact Ht.
    - apply ln_churn_negative; assumption. }
  pose proof (ln_surv_negative alpha beta Ha Hb (n - 1)) as Hs.
  assert (Htail : last * ln (surv alpha beta (n - 1)) <= 0) by nra.
  destruct (Rle_lt_or_eq_dec _ _ Hle) as [Hlt | Heq]; [lra |].
  assert (Hsum : sum (map (rate data) (seq 0 n)) = 0) by (apply Hzero, Heq).
  replace n with (S (n - 1)) in Hsum by lia.
  rewrite sum_rates in Hsum. rewrite Hlast in Hsum.
  assert (last = 1) by lra. rewrite Heq. nra.
Qed.

Lemma log_likelihood_negative_witness :
  exists v, log_likelihood 1 1 [1 / 2; 1 / 4] None = Ok v /\ v < 0.
Proof.
  apply (log_likelihood_negative 1 1 [1 / 2; 1 / 4]
           [1 - 1 / 2; 1 / 2 - 1 / 4] (1 / 4)); try lra.
  - rewrite survivor_rates_Ok. reflexivity.
  - repeat constructor; lra.
  - reflexivity.
Defined.

(** ** The multi-cohort log-likelihood on arbitrary datasets *)

Lemma nth_scale (k : R) (l : list R) (j : nat) :
  nth j (map (Rmult k) l) 0 = k * nth j l 0.
Proof.
  revert j. induction l as [| a l IH]; intros j.
  - destruct j; cbn; ring.
  - destruct j; cbn [map nth]; [reflexivity | apply IH].
Qed.

Lemma cohort_term_scale (alpha beta k : R) (cohorts_total i : nat)
    (count : list R) :
  cohort_term alpha beta cohorts_total i (map (Rmult k) count)
  = k * cohort_term alpha beta cohorts_total i count.
Proof.
  unfold cohort_term. rewrite length_map, !nth_scale.
  rewrite Rmult_plus_distr_l, <- sum_scale, map_map.
  f_equal; [| ring]. f_equal. apply map_ext. intros j.
  rewrite !nth_scale. ring.
Qed.

Lemma cohort_terms_scale (alpha beta k : R) (cohorts_total : nat)
    (data : list (list R)) :
  forall i,
    cohort_terms alpha beta cohorts_total i (map (map (Rmult k)) data)
    = k * cohort_terms alpha beta cohorts_total i data.
Proof.
  induction data as [| count data IH]; intros i.
  - cbn. ring.
  - cbn [map cohort_terms]. rewrite cohort_term_scale, IH. ring.
Qed.

Lemma cohort_length_dec (m : nat) (cohort : list R) :
  {(1 <= length cohort <= m + 1)%nat} + {~ (1 <= length cohort <= m + 1)%nat}.
Proof.
  destruct (le_dec 1 (length cohort)) as [H1 | H1];
    destruct (le_dec (length cohort) (m + 1)) as [H2 | H2];
    try (right; lia).
  left. lia.
Qed.

Section PositiveShapeCohorts.

Variables alpha beta : R.
Hypothesis alpha_pos : 0 < alpha.
Hypothesis beta_pos : 0 < beta.

(** A round of the loop over cohorts raises [IndexError] when the cohort
    is empty or too long for the sequence, or when the survivor index is
    past the end of the sequence. *)
Lemma cohort_body_raises (m cohorts_total i : nat) (cohort : list R)
    (total : R) :
  (i < cohorts_total)%nat ->
  ~ (1 <= length cohort <= m + 1)%nat \/ ~ (cohorts_total - i - 1 < m)%nat ->
  cohort_body (churn_seq alpha beta m) (Z.of_nat cohorts_total)
              (Z.of_nat i, cohort) total
  = Raise IndexError.
Proof.
  intros Hi Hbad. unfold cohort_body.
  destruct cohort as [| c0 cohort'].
  { rewrite range_empty by (unfold len; cbn; lia).
    cbn [mapM]. rewrite bind_Ok. cbv zeta.
    rewrite getitem_empty. reflexivity. }
  set (cohort := c0 :: cohort') in *.
  assert (Hlen : (1 <= length cohort)%nat) by (subst cohort; cbn; lia).
  unfold range, len.
  replace (Z.to_nat (Z.of_nat (length cohort) - 1 - 0))
    with (length cohort - 1)%nat by lia.
  change 0%Z with (Z.of_nat 0). rewrite iota_seq.
  assert (Hterm : forall j, (j < length cohort - 1)%nat -> (j < m)%nat ->
            (cj <- getitem cohort (Z.of_nat j) ;;
             cj1 <- getitem cohort (Z.of_nat j + 1) ;;
             pj <- getitem (churn_seq alpha beta m) (Z.of_nat j) ;;
             l <- log pj ;;
             Ok ((cj - cj1) * l))
            = Ok ((nth j cohort 0 - nth (S j) cohort 0)
                  * ln (churn alpha beta j))).
  { intros j Hj Hjm.
    rewrite getitem_nth by lia. rewrite bind_Ok.
    replace (Z.of_nat j + 1)%Z with (Z.of_nat (S j)) by lia.
    rewrite getitem_nth by lia. rewrite bind_Ok.
    rewrite getitem_churn_seq by lia.
    rewrite bind_Ok, log_Ok by (apply churn_pos; assumption). reflexivity. }
  destruct (le_lt_dec (length cohort) (m + 1)) as [Hshort | Hlong].
  - rewrite (mapM_map_Ok _ _
               (fun j => (nth j cohort 0 - nth (S j) cohort 0)
                         * ln (churn alpha beta j))).
    2:{ intros j Hj. apply in_seq in Hj. apply Hterm; lia. }
    rewrite bind_Ok. cbv zeta.
    rewrite getitem_minus_one by (subst cohort; discriminate).
    rewrite bind_Ok.
    rewrite survivor_out; [reflexivity |].
    unfold len. rewrite length_churn_seq. lia.
  - rewrite (mapM_map_seq_raises _ _ IndexError m); [reflexivity | lia | |].
    + intros j Hj. rewrite Hterm by lia. eexists. reflexivity.
    + rewrite getitem_nth by lia. rewrite bind_Ok.
      replace (Z.of_nat m + 1)%Z with (Z.of_nat (S m)) by lia.
      rewrite getitem_nth by lia. rewrite bind_Ok.
      rewrite getitem_out; [reflexivity |].
      unfold len. rewrite length_churn_seq. lia.
Qed.

(** The loop over the cohorts numbered from [i] raises as soon as one
    round does. *)
Lemma cohort_loop_raises (m cohorts_total : nat) (data : list (list R)) :
  forall (i : nat) (total : R),
    (i + length data = cohorts_total)%nat ->
    data <> [] ->
    ~ (cohorts_total - i - 1 < m)%nat \/
    Exists (fun cohort => ~ (1 <= length cohort <= m + 1)%nat) data ->
    foldM (cohort_body (churn_seq alpha beta m) (Z.of_nat cohorts_total))
          (combine (iota (Z.of_nat i) (length data)) data) total
    = Raise IndexError.
Proof.
  induction data as [| cohort data IH]; intros i total Hi Hne Hbad.
  - contradiction.
  - cbn [length iota combine foldM]. cbn [length] in Hi.
    destruct (cohort_length_dec m cohort) as [Hgood | Hlong].
    + destruct (lt_dec (cohorts_total - i - 1) m) as [Htail | Htail].
      * rewrite cohort_body_Ok by (assumption || lia).
        rewrite bind_Ok.
        replace (Z.of_nat i + 1)%Z with (Z.of_nat (S i)) by lia.
        destruct Hbad as [Hbad | Hbad]; [contradiction |].
        inversion Hbad as [c l Hc | c l Hl]; subst; [contradiction |].
        apply IH; [lia | | right; exact Hl].
        intros E. subst data. inversion Hl.
      * rewrite cohort_body_raises by (lia || (right; exact Htail)).
        reflexivity.
    + rewrite cohort_body_raises by (lia || (left; exact Hlong)).
      reflexivity.
Qed.

(** [log_likelihood_multi_cohort] outside the shape that
    [log_likelihood_multi_cohort_Ok] asks for. *)
Lemma log_likelihood_multi_cohort_bad_shape (data : list (list R)) :
  (forall first rest, data = first :: rest ->
     ~ (Forall (fun cohort => (1 <= length cohort <= length first + 1)%nat)
               data /\
        (length data <= length first)%nat)) ->
  log_likelihood_multi_cohort alpha beta data = Raise IndexError.
Proof.
  intros Hshape. unfold log_likelihood_multi_cohort.
  rewrite (guard_passes alpha beta alpha_pos beta_pos).
  destruct data as [| first rest].
  { rewrite getitem_empty. reflexivity. }
  specialize (Hshape first rest eq_refl).
  change (getitem (first :: rest) 0) with (Ok first). rewrite bind_Ok.
  rewrite (generate_probabilities_Ok alpha beta alpha_pos beta_pos), bind_Ok.
  cbv zeta. unfold enumerate, range, len at 2 3.
  rewrite Z.sub_0_r, Nat2Z.id.
  apply (cohort_loop_raises _ (length (first :: rest)) (first :: rest)
           0%nat 0); [reflexivity | discriminate |].
  destruct first as [| f0 first'].
  { right. apply Exists_cons_hd. cbn. lia. }
  set (first := f0 :: first') in *.
  replace (Z.to_nat (Z.max (len first) 1)) with (length first)
    by (unfold len; subst first; cbn [length]; lia).
  destruct (Forall_Exists_dec _ (cohort_length_dec (length first))
              (first :: rest)) as [Hall | Hex].
  - left. intros Hlt. apply Hshape. split; [exact Hall |]. lia.
  - right. exact Hex.
Qed.

End PositiveShapeCohorts.

(** X16: in exact arithmetic (numbers as real numbers, no rounding), for
    alpha, beta > 0 the multi-cohort log-likelihood is linear in the
    counts: on a dataset of the shape it accepts, multiplying every count
    by k multiplies the result by k. *)
Theorem log_likelihood_multi_cohort_scales
    (alpha beta k : R) (first : list R) (rest : list (list R)) :
  0 < alpha -> 0 < beta ->
  Forall (fun cohort => (1 <= length cohort <= length first + 1)%nat)
         (first :: rest) ->
  (length (first :: rest) <= length first)%nat ->
  exists v,
    log_likelihood_multi_cohort alpha beta (first :: rest) = Ok v /\
    log_likelihood_multi_cohort alpha beta (map (map (Rmult k)) (first :: rest))
    = Ok (k * v).
Proof.
  intros Ha Hb Hall Hcount. rewrite Forall_forall in Hall.
  exists (multi_cohort_formula alpha beta (first :: rest)).
  split; [apply log_likelihood_multi_cohort_Ok; assumption |].
  cbn [map].
  rewrite log_likelihood_multi_cohort_Ok; try assumption.
  - f_equal. unfold multi_cohort_formula.
    change (map (Rmult k) first :: map (map (Rmult k)) rest)
      with (map (map (Rmult k)) (first :: rest)).
    rewrite length_map. apply cohort_terms_scale.
  - intros cohort Hin.
    change (map (Rmult k) first :: map (map (Rmult k)) rest)
      with (map (map (Rmult k)) (first :: rest)) in Hin.
    apply in_map_iff in Hin. destruct Hin as [c [Hc Hin]]. subst cohort.
    rewrite !length_map. apply Hall, Hin.
  - cbn [length] in *. rewrite !length_map. exact Hcount.
Qed.

Lemma log_likelihood_multi_cohort_scales_witness :
  exists v,
    log_likelihood_multi_cohort 1 1 [[5; 4; 3]; [5; 4]] = Ok v /\
    log_likelihood_multi_cohort 1 1
      (map (map (Rmult 2)) [[5; 4; 3]; [5; 4]])
    = Ok (2 * v).
Proof.
  apply (log_likelihood_multi_cohort_scales 1 1 2 [5; 4; 3] [[5; 4]]);
    [lra | lra | | cbn; lia].
  repeat constructor; cbn; lia.
Defined.

(** X17: in exact arithmetic (numbers as real numbers, no rounding), the
    sentinel -1000 of the domain guard is not a lower bound of the values
    at valid parameters: for every alpha, beta > 0 there is a count c > 0
    such that [log_likelihood_multi_cohort] on the single cohort [c, 0]
    returns a number below -1000. *)
Theorem sentinel_is_not_a_lower_bound (alpha beta : R) :
  0 < alpha -> 0 < beta ->
  exists c v,
    0 < c /\
    log_likelihood_multi_cohort alpha beta [[c; 0]] = Ok v /\
    v < -1000.
Proof.
  intros Ha Hb.
  pose proof (ln_churn_negative alpha beta Ha Hb 0) as Hln.
  set (g := ln (churn alpha beta 0)) in *.
  exists (1001 / - g). eexists.
  assert (Hc : 0 < 1001 / - g) by (apply Rdiv_lt_0_compat; lra).
  split; [exact Hc |]. split.
  - apply log_likelihood_multi_cohort_Ok; try assumption.
    + intros cohort [E | []]. subst cohort. cbn. lia.
    + cbn. lia.
  - unfold multi_cohort_formula, cohort_terms, cohort_term, sum.
    cbn [length Nat.sub seq map fold_left nth]. fold g.
    replace (0 + (1001 / - g - 0) * g + 0 * ln (surv alpha beta 0) + 0)
      with (-1001) by (field; lra).
    lra.
Qed.

Lemma sentinel_is_not_a_lower_bound_witness :
  exists c v,
    0 < c /\
    log_likelihood_multi_cohort 1 1 [[c; 0]] = Ok v /\
    v < -1000.
Proof.
  apply (sentinel_is_not_a_lower_bound 1 1); lra.
Defined.

(** ** The objectives handed to the optimizer *)

(** X20: [fit] and [fit_multi_cohort] on empty data.  With an optimizer
    that evaluates the objective at the initial guess and lets its
    exception through, both raise [IndexError] on the empty input; no
    [Exception(res.message)] is raised and nothing is returned. *)
Theorem fit_empty_input
    (minimize : (R * R -> result R) -> R * R -> String.string -> R ->
                result OptimizeResult.t) :
  (forall f x0 method xtol e,
     f x0 = Raise e -> minimize f x0 method xtol = Raise e) ->
  fit minimize [] = inr (Builtin IndexError) /\
  fit_multi_cohort minimize [] = inr (Builtin IndexError).
Proof.
  intros Hmin. split.
  - unfold fit, maximize. rewrite survivor_rates_Ok, bind_Ok.
    rewrite (Hmin _ _ _ _ IndexError); [reflexivity |].
    unfold maximize_func. cbn [fst snd].
    rewrite log_likelihood_index_error; [reflexivity | lra | lra |].
    left. reflexivity.
  - unfold fit_multi_cohort, maximize_multi_cohort.
    rewrite (Hmin _ _ _ _ IndexError); [reflexivity |].
    unfold maximize_multi_cohort_func. cbn [fst snd].
    rewrite log_likelihood_multi_cohort_bad_shape; [reflexivity | lra | lra |].
    intros first rest E. discriminate E.
Qed.

Lemma fit_empty_input_witness :
  fit (fun f x0 _ _ => v <- f x0 ;;
         Ok {| OptimizeResult.x := x0;
               OptimizeResult.status := 0;
               OptimizeResult.message := "Optimization terminated successfully."%string |}) []
  = inr (Builtin IndexError) /\
  fit_multi_cohort
      (fun f x0 _ _ => v <- f x0 ;;
         Ok {| OptimizeResult.x := x0;
               OptimizeResult.status := 0;
               OptimizeResult.message := "Optimization terminated successfully."%string |}) []
  = inr (Builtin IndexError).
Proof.
  apply fit_empty_input.
  intros f x0 method xtol e H. rewrite H. reflexivity.
Defined.

(** * The computed values, operation for operation *)

(** ** The running subtraction of [survivor] *)

Lemma firstn_S_nth (l : list R) (k : nat) :
  (k < length l)%nat -> firstn (S k) l = firstn k l ++ [nth k l 0].
Proof.
  revert k. induction l as [| a l IH]; intros k Hk.
  - cbn in Hk. lia.
  - destruct k as [| k].
    + reflexivity.
    + cbn [length] in Hk. cbn [firstn nth app]. f_equal. apply IH. lia.
Qed.

Lemma running_survivor_prefix (p : list R) (k : nat) :
  (k < length p)%nat -> running_survivor p k = 1 - prefix_sum p k.
Proof.
  destruct p as [| p0 p]; [cbn; lia |].
  unfold running_survivor. cbn [tl hd length].
  induction k as [| k IH]; intros Hk.
  - reflexivity.
  - rewrite firstn_S_nth by lia. rewrite fold_left_app. cbn [fold_left].
    rewrite IH by lia. unfold prefix_sum. cbn [sum_f_R0 nth]. lra.
Qed.

(** [survivor] returns the running subtraction up to index max(t, 0). *)
Lemma survivor_running (p : list R) (t : Z) :
  p <> [] -> (t < len p)%Z ->
  survivor p t = Ok (running_survivor p (Z.to_nat (Z.max t 0))).
Proof.
  intros Hne Ht. destruct (Z_lt_le_dec t 0) as [Hneg | Hpos].
  - destruct p as [| p0 p]; [contradiction |].
    rewrite survivor_nonpositive by lia.
    replace (Z.to_nat (Z.max t 0)) with 0%nat by lia. reflexivity.
  - rewrite survivor_Ok by lia.
    replace (Z.max t 0) with t by lia.
    rewrite running_survivor_prefix by (unfold len in Ht; lia).
    reflexivity.
Qed.

(** ** The two formulas when every logarithm is defined *)

Lemma mapM_seq_Ok {C : Type} (f : nat -> result C) (h : nat -> C) (n : nat) :
  (forall t, (t < n)%nat -> f t = Ok (h t)) ->
  mapM f (seq 0 n) = Ok (map h (seq 0 n)).
Proof.
  intros Hf. rewrite <- (map_id (seq 0 n)) at 1.
  apply (mapM_map_Ok (fun t => t) f h). intros t Ht.
  apply in_seq in Ht. apply Hf. lia.
Qed.

Lemma single_cohort_value_Ok (weights p : list R) (last s : R) :
  (forall t, (t < length weights)%nat -> 0 < nth t p 0) -> 0 < s ->
  single_cohort_value weights p last s
  = Ok (single_cohort_sum weights p last s).
Proof.
  intros Hp Hs. unfold single_cohort_value.
  rewrite (mapM_seq_Ok _ (fun t => nth t weights 0 * ln (nth t p 0))).
  - rewrite bind_Ok, log_Ok by exact Hs. reflexivity.
  - intros t Ht. rewrite log_Ok by (apply Hp; exact Ht). reflexivity.
Qed.

(** When the survivor value is not positive the expression ends in the
    [ValueError] of [math.log], whatever the weights are. *)
Lemma single_cohort_value_ValueError (weights p : list R) (last s : R) :
  (forall t, (t < length weights)%nat -> 0 < nth t p 0) -> s <= 0 ->
  single_cohort_value weights p last s = Raise ValueError.
Proof.
  intros Hp Hs. unfold single_cohort_value.
  rewrite (mapM_seq_Ok _ (fun t => nth t weights 0 * ln (nth t p 0))).
  - rewrite bind_Ok. unfold log.
    destruct (Rlt_dec 0 s) as [H | _]; [lra | reflexivity].
  - intros t Ht. rewrite log_Ok by (apply Hp; exact Ht). reflexivity.
Qed.

Lemma cohort_value_Ok (p : list R) (cohorts_total i : nat) (count : list R)
    (total : R) :
  (forall j, (j < length count - 1)%nat -> 0 < nth j p 0) ->
  (cohorts_total - i - 1 < length p)%nat ->
  0 < running_survivor p (cohorts_total - i - 1) ->
  cohort_value p cohorts_total i count total
  = Ok (cohort_sum p cohorts_total i count total).
Proof.
  intros Hp Hlen Hs. unfold cohort_value.
  rewrite (mapM_seq_Ok _ (fun j => (nth j count 0 - nth (S j) count 0)
                                   * ln (nth j p 0))).
  2:{ intros j Hj. rewrite log_Ok by (apply Hp; exact Hj). reflexivity. }
  rewrite bind_Ok.
  rewrite survivor_running;
    [| destruct p; [cbn in Hlen; lia | discriminate] | unfold len; lia].
  replace (Z.to_nat (Z.max (Z.of_nat (cohorts_total - i - 1)) 0))
    with (cohorts_total - i - 1)%nat by lia.
  rewrite bind_Ok, log_Ok by exact Hs. reflexivity.
Qed.

Lemma cohorts_value_Ok (p : list R) (cohorts_total : nat)
    (data : list (list R)) :
  forall (i : nat) (total : R),
    (forall v, In v p -> 0 < v) ->
    (forall t, (t < length p)%nat -> 0 < running_survivor p t) ->
    (forall count, In count data -> (length count <= length p + 1)%nat) ->
    (data <> [] -> (cohorts_total - i - 1 < length p)%nat) ->
    cohorts_value p cohorts_total i data total
    = Ok (cohorts_sum p cohorts_total i data total).
Proof.
  induction data as [| count data IH]; intros i total Hp Hs Hlen Htail.
  - reflexivity.
  - cbn [cohorts_value cohorts_sum].
    assert (Ht : (cohorts_total - i - 1 < length p)%nat)
      by (apply Htail; discriminate).
    rewrite cohort_value_Ok.
    + rewrite bind_Ok. apply IH; try assumption.
      * intros c Hc. apply Hlen. right. exact Hc.
      * intros _. lia.
    + intros j Hj. apply Hp, nth_In.
      specialize (Hlen count (or_introl eq_refl)). lia.
    + exact Ht.
    + apply Hs, Ht.
Qed.

Section PositiveShapeValues.

Variables alpha beta : R.
Hypothesis alpha_pos : 0 < alpha.
Hypothesis beta_pos : 0 < beta.

Lemma running_survivor_churn_seq (n t : nat) :
  (t < n)%nat -> running_survivor (churn_seq alpha beta n) t = surv alpha beta t.
Proof.
  intros Ht.
  rewrite running_survivor_prefix by (rewrite length_churn_seq; exact Ht).
  unfold churn_seq. rewrite prefix_sum_map by exact Ht. reflexivity.
Qed.

(** [log_likelihood] with explicit survivors, on the values it computes. *)
Lemma log_likelihood_value (data survivors : list R) :
  data <> [] -> (length survivors <= length data)%nat ->
  log_likelihood alpha beta data (Some survivors)
  = single_cohort_value survivors (churn_seq alpha beta (length data))
      (nth (length data - 1) data 0) (surv alpha beta (length data - 1)).
Proof.
  intros Hne Hlen.
  rewrite (log_likelihood_explicit alpha beta alpha_pos beta_pos)
    by assumption.
  rewrite single_cohort_value_Ok.
  - f_equal. unfold single_cohort_sum. f_equal. f_equal.
    apply map_ext_in. intros t Ht. apply in_seq in Ht.
    unfold churn_seq. rewrite nth_map_seq by lia. reflexivity.
  - intros t Ht. unfold churn_seq. rewrite nth_map_seq by lia.
    apply churn_pos; assumption.
  - apply surv_pos; assumption.
Qed.

Lemma cohort_value_churn (m cohorts_total i : nat) (count : list R)
    (total : R) :
  (1 <= length count <= m + 1)%nat ->
  (cohorts_total - i - 1 < m)%nat ->
  cohort_value (churn_seq alpha beta m) cohorts_total i count total
  = Ok (total + cohort_term alpha beta cohorts_total i count).
Proof.
  intros Hlen Htail. rewrite cohort_value_Ok.
  - f_equal. unfold cohort_sum, cohort_term.
    rewrite running_survivor_churn_seq by exact Htail.
    rewrite Rplus_assoc. f_equal. f_equal. f_equal.
    apply map_ext_in. intros j Hj. apply in_seq in Hj.
    unfold churn_seq. rewrite nth_map_seq by lia. reflexivity.
  - intros j Hj. unfold churn_seq. rewrite nth_map_seq by lia.
    apply churn_pos; assumption.
  - rewrite length_churn_seq. exact Htail.
  - rewrite running_survivor_churn_seq by exact Htail.
    apply surv_pos; assumption.
Qed.

Lemma cohorts_value_churn (m cohorts_total : nat) (data : list (list R)) :
  forall (i : nat) (total : R),
    (forall count, In count data -> (1 <= length count <= m + 1)%nat) ->
    (cohorts_total - i - 1 < m)%nat ->
    cohorts_value (churn_seq alpha beta m) cohorts_total i data total
    = Ok (total + cohort_terms alpha beta cohorts_total i data).
Proof.
  induction data as [| count data IH]; intros i total Hall Htail.
  - cbn. f_equal. ring.
  - cbn [cohorts_value cohort_terms].
    rewrite cohort_value_churn;
      [| apply Hall; left; reflexivity | exact Htail].
    rewrite bind_Ok.
    rewrite IH; [| intros c Hc; apply Hall; right; exact Hc | lia].
    f_equal. ring.
Qed.

(** [log_likelihood_multi_cohort] on the values it computes. *)
Lemma log_likelihood_multi_cohort_value (first : list R)
    (rest : list (list R)) :
  (forall cohort, In cohort (first :: rest) ->
     (1 <= length cohort <= length first + 1)%nat) ->
  (length (first :: rest) <= length first)%nat ->
  log_likelihood_multi_cohort alpha beta (first :: rest)
  = cohorts_value (churn_seq alpha beta (length first))
                  (length (first :: rest)) 0 (first :: rest) 0.
Proof.
  intros Hall Hcount.
  rewrite (log_likelihood_multi_cohort_Ok alpha beta alpha_pos beta_pos)
    by assumption.
  rewrite cohorts_value_churn; [| exact Hall | cbn [length] in *; lia].
  unfold multi_cohort_formula. f_equal. ring.
Qed.

End PositiveShapeValues.

(** ** C4: the identity on binary64 numbers *)

(** C4 as stated fails on the numbers the program computes with.  On
    binary64, for alpha = 2, beta = 3 and n = 5 the sum of the sequence
    plus [survivor p 4] is not 1 (it is 1.0000000000000002); and for
    alpha = 2^60, beta = 1 and n = 3 the sum of the sequence is not below
    1 (it is 1.0). *)
Lemma telescoping_identity_fails_on_binary64 :
  (exists p s,
     Binary64.generate_probabilities (Binary64.of_int 2) (Binary64.of_int 3) 5
     = Ok p /\
     Binary64.survivor p 4 = Ok s /\
     PrimFloat.eqb (PrimFloat.add (Binary64.sum p) s) (Binary64.of_int 1)
     = false) /\
  (exists p,
     Binary64.generate_probabilities
       (Binary64.of_int (2 ^ 60)) (Binary64.of_int 1) 3
     = Ok p /\
     PrimFloat.ltb (Binary64.sum p) (Binary64.of_int 1) = false).
Proof.
  split.
  - eexists. eexists. split; [vm_compute; reflexivity |].
    split; vm_compute; reflexivity.
  - eexists. split; vm_compute; reflexivity.
Qed.

(** ** C8: the survivor function below index 0 *)

(** C8, amended: on every sequence p generated with alpha, beta > 0 the
    survivor function is non-increasing, [survivor p (t+1) <= survivor p t]
    whenever t+1 indexes p, and at t = -1 it is 1 - p[0], that is
    1 - alpha/(alpha+beta): the value at t = 0, since the loop body does
    not run, and not 1. *)
Theorem survivor_non_increasing (alpha beta : R) (n : Z) :
  0 < alpha -> 0 < beta ->
  exists p,
    generate_probabilities alpha beta n = Ok p /\
    (forall t, (t + 1 < len p)%Z ->
       exists s s',
         survivor p t = Ok s /\ survivor p (t + 1) = Ok s' /\ s' <= s) /\
    getitem p 0 = Ok (alpha / (alpha + beta)) /\
    survivor p (-1) = Ok (1 - alpha / (alpha + beta)) /\
    survivor p (-1) = survivor p 0.
Proof.
  intros Ha Hb.
  set (m := Z.to_nat (Z.max n 1)).
  assert (Hm : (1 <= m)%nat) by (subst m; lia).
  exists (churn_seq alpha beta m).
  split; [apply generate_probabilities_Ok; assumption |].
  assert (Hneg : forall t, (t <= 0)%Z ->
            survivor (churn_seq alpha beta m) t
            = Ok (1 - alpha / (alpha + beta))).
  { intros t Ht. destruct m as [| m']; [lia |].
    unfold churn_seq. cbn [seq map].
    rewrite survivor_nonpositive by exact Ht. reflexivity. }
  split; [| split; [| split]].
  - intros t Ht. unfold len in Ht. rewrite length_churn_seq in Ht.
    destruct (Z_lt_le_dec t 0) as [Hlt | Hge].
    + eexists. eexists. rewrite !Hneg by lia.
      split; [reflexivity |]. split; [reflexivity | lra].
    + exists (surv alpha beta (Z.to_nat t)), (surv alpha beta (S (Z.to_nat t))).
      split; [| split].
      * rewrite <- (Z2Nat.id t) at 1 by lia.
        apply survivor_churn_seq; lia.
      * replace (t + 1)%Z with (Z.of_nat (S (Z.to_nat t))) by lia.
        apply survivor_churn_seq; lia.
      * rewrite surv_S.
        pose proof (churn_pos alpha beta Ha Hb (S (Z.to_nat t))). lra.
  - change 0%Z with (Z.of_nat 0). rewrite getitem_churn_seq by lia.
    reflexivity.
  - apply Hneg. lia.
  - rewrite !Hneg by lia. reflexivity.
Qed.

Lemma survivor_non_increasing_witness :
  exists p,
    generate_probabilities 1 1 3 = Ok p /\
    (forall t, (t + 1 < len p)%Z ->
       exists s s',
         survivor p t = Ok s /\ survivor p (t + 1) = Ok s' /\ s' <= s) /\
    getitem p 0 = Ok (1 / (1 + 1)) /\
    survivor p (-1) = Ok (1 - 1 / (1 + 1)) /\
    survivor p (-1) = survivor p 0.
Proof.
  apply (survivor_non_increasing 1 1 3); lra.
Defined.

(** ** C2: the value of the single-cohort log-likelihood *)

(** C2, amended: for alpha > 0, beta > 0 and a series obs of length n >= 2
    with values in (0,1], let rates = [survivor_rates obs], that is
    rate[0] = 1 - obs[0] and rate[t] = obs[t-1] - obs[t]; let p =
    [generate_probabilities alpha beta n]; and let s = [survivor p (n-1)],
    that is 1 - p[0] - ... - p[n-1] subtracted from the left: the survivor
    value at index n-1, the last index of the series.  Then
    [log_likelihood alpha beta obs] evaluates the sum over t of
    rate[t] * log(p[t]) plus obs[n-1] * log(s), with [math.log] raising
    [ValueError] outside its domain; when every p[t] and s are positive it
    returns that number. *)
Theorem log_likelihood_formula (alpha beta : R) (obs : list R) :
  0 < alpha -> 0 < beta -> (2 <= length obs)%nat ->
  Forall (fun x => 0 < x <= 1) obs ->
  exists rates p s,
    survivor_rates obs = Ok rates /\
    rates = map (rate obs) (seq 0 (length obs)) /\
    generate_probabilities alpha beta (len obs) = Ok p /\
    len p = len obs /\
    survivor p (len obs - 1) = Ok s /\
    s = running_survivor p (length obs - 1) /\
    log_likelihood alpha beta obs None
    = single_cohort_value rates p (nth (length obs - 1) obs 0) s /\
    ((forall v, In v p -> 0 < v) -> 0 < s ->
       log_likelihood alpha beta obs None
       = Ok (single_cohort_sum rates p (nth (length obs - 1) obs 0) s)).
Proof.
  intros Ha Hb Hn _.
  assert (Hne : obs <> []) by (destruct obs; [cbn in Hn; lia | discriminate]).
  set (n := length obs) in *.
  exists (map (rate obs) (seq 0 n)), (churn_seq alpha beta n),
         (surv alpha beta (n - 1)).
  assert (Hrates : survivor_rates obs = Ok (map (rate obs) (seq 0 n)))
    by apply survivor_rates_Ok.
  assert (Hvalue : log_likelihood alpha beta obs None
                   = single_cohort_value (map (rate obs) (seq 0 n))
                       (churn_seq alpha beta n) (nth (n - 1) obs 0)
                       (surv alpha beta (n - 1))).
  { rewrite <- (log_likelihood_precomputed _ _ _ _ Hrates).
    apply log_likelihood_value; try assumption.
    rewrite length_map, length_seq. subst n. lia. }
  split; [exact Hrates |]. split; [reflexivity |]. split.
  { rewrite generate_probabilities_Ok by assumption.
    replace (Z.to_nat (Z.max (len obs) 1)) with n by (unfold len; lia).
    reflexivity. }
  split; [unfold len; rewrite length_churn_seq; reflexivity |]. split.
  { replace (len obs - 1)%Z with (Z.of_nat (n - 1)) by (unfold len; lia).
    apply survivor_churn_seq. lia. }
  split; [symmetry; apply running_survivor_churn_seq; lia |].
  split; [exact Hvalue |].
  intros Hp Hs. rewrite Hvalue. apply single_cohort_value_Ok; [| exact Hs].
  intros t Ht. rewrite length_map, length_seq in Ht.
  apply Hp, nth_In. rewrite length_churn_seq. exact Ht.
Qed.

Lemma log_likelihood_formula_witness :
  exists rates p s,
    survivor_rates [1 / 2; 1 / 4] = Ok rates /\
    rates = map (rate [1 / 2; 1 / 4]) (seq 0 (length [1 / 2; 1 / 4])) /\
    generate_probabilities 1 1 (len [1 / 2; 1 / 4]) = Ok p /\
    len p = len [1 / 2; 1 / 4] /\
    survivor p (len [1 / 2; 1 / 4] - 1) = Ok s /\
    s = running_survivor p (length [1 / 2; 1 / 4] - 1) /\
    log_likelihood 1 1 [1 / 2; 1 / 4] None
    = single_cohort_value rates p
        (nth (length [1 / 2; 1 / 4] - 1) [1 / 2; 1 / 4] 0) s /\
    ((forall v, In v p -> 0 < v) -> 0 < s ->
       log_likelihood 1 1 [1 / 2; 1 / 4] None
       = Ok (single_cohort_sum rates p
               (nth (length [1 / 2; 1 / 4] - 1) [1 / 2; 1 / 4] 0) s)).
Proof.
  apply (log_likelihood_formula 1 1 [1 / 2; 1 / 4]); [lra | lra | cbn; lia |].
  repeat constructor; lra.
Defined.

(** ** C3: the value of the multi-cohort log-likelihood *)

(** C3, amended: for alpha > 0, beta > 0 and a non-empty dataset of
    non-empty cohorts, [log_likelihood_multi_cohort] works on one
    churn-probability sequence p, sized to the length of the first
    cohort.  When no cohort is more than one observation longer than the
    first (so in particular when the first cohort is the longest) and
    there are at most as many cohorts as the first cohort has
    observations, it evaluates, cohort after cohort, the sum over
    j <= L_i - 2 of (count[j] - count[j+1]) * log(p[j]) plus
    count[L_i - 1] * log of [survivor p (cohorts_total - i - 1)], with
    [math.log] raising [ValueError] outside its domain; when every p[j]
    and every survivor value of p are positive it returns the total. *)
Theorem log_likelihood_multi_cohort_formula
    (alpha beta : R) (first : list R) (rest : list (list R)) :
  0 < alpha -> 0 < beta ->
  Forall (fun cohort => (1 <= length cohort <= length first + 1)%nat)
         (first :: rest) ->
  (length (first :: rest) <= length first)%nat ->
  exists p,
    generate_probabilities alpha beta (len first) = Ok p /\
    len p = len first /\
    log_likelihood_multi_cohort alpha beta (first :: rest)
    = cohorts_value p (length (first :: rest)) 0 (first :: rest) 0 /\
    ((forall v, In v p -> 0 < v) ->
     (forall t, (t < length p)%nat -> 0 < running_survivor p t) ->
     log_likelihood_multi_cohort alpha beta (first :: rest)
     = Ok (cohorts_sum p (length (first :: rest)) 0 (first :: rest) 0)).
Proof.
  intros Ha Hb Hall Hcount.
  rewrite Forall_forall in Hall.
  assert (Hfirst : (1 <= length first)%nat).
  { apply (Hall first). left. reflexivity. }
  exists (churn_seq alpha beta (length first)).
  assert (Hvalue :
    log_likelihood_multi_cohort alpha beta (first :: rest)
    = cohorts_value (churn_seq alpha beta (length first))
                    (length (first :: rest)) 0 (first :: rest) 0)
    by (apply log_likelihood_multi_cohort_value; assumption).
  split.
  { rewrite generate_probabilities_Ok by assumption.
    replace (Z.to_nat (Z.max (len first) 1)) with (length first)
      by (unfold len; lia).
    reflexivity. }
  split; [unfold len; rewrite length_churn_seq; reflexivity |].
  split; [exact Hvalue |].
  intros Hp Hs. rewrite Hvalue. apply cohorts_value_Ok; try assumption.
  - intros count Hc. rewrite length_churn_seq. apply Hall, Hc.
  - intros _. rewrite length_churn_seq. cbn [length] in *. lia.
Qed.

Lemma log_likelihood_multi_cohort_formula_witness :
  exists p,
    generate_probabilities 1 1 (len [5; 4; 3]) = Ok p /\
    len p = len [5; 4; 3] /\
    log_likelihood_multi_cohort 1 1 [[5; 4; 3]; [5; 4]]
    = cohorts_value p (length [[5; 4; 3]; [5; 4]]) 0 [[5; 4; 3]; [5; 4]] 0 /\
    ((forall v, In v p -> 0 < v) ->
     (forall t, (t < length p)%nat -> 0 < running_survivor p t) ->
     log_likelihood_multi_cohort 1 1 [[5; 4; 3]; [5; 4]]
     = Ok (cohorts_sum p (length [[5; 4; 3]; [5; 4]]) 0
             [[5; 4; 3]; [5; 4]] 0)).
Proof.
  apply (log_likelihood_multi_cohort_formula 1 1 [5; 4; 3] [[5; 4]]);
    [lra | lra | | cbn; lia].
  repeat constructor; cbn; lia.
Defined.

(** ** [survivor] on an arbitrary list *)

(** X2: [survivor p t] returns exactly when [p] is not empty and
    [t < len(p)], and then it is ((1 - p[0]) - p[1]) - ... - p[max(t,0)],
    subtracted from the left; on an empty list, or for [t >= len(p)], it
    raises [IndexError]. *)
Theorem survivor_defined (p : list R) (t : Z) :
  (p <> [] -> (t < len p)%Z ->
     survivor p t = Ok (running_survivor p (Z.to_nat (Z.max t 0)))) /\
  (p = [] \/ (len p <= t)%Z -> survivor p t = Raise IndexError).
Proof.
  split.
  - apply survivor_running.
  - intros [Hnil | Hout].
    + subst p. unfold survivor. rewrite getitem_empty. reflexivity.
    + apply survivor_out, Hout.
Qed.

Lemma survivor_defined_witness :
  survivor [1 / 2; 1 / 6; 1 / 12] 1
  = Ok (running_survivor [1 / 2; 1 / 6; 1 / 12] (Z.to_nat (Z.max 1 0))) /\
  survivor [1 / 2; 1 / 6; 1 / 12] 3 = Raise IndexError.
Proof.
  destruct (survivor_defined [1 / 2; 1 / 6; 1 / 12] 1) as [Hok _].
  destruct (survivor_defined [1 / 2; 1 / 6; 1 / 12] 3) as [_ Herr].
  split.
  - apply Hok; [discriminate | unfold len; cbn; lia].
  - apply Herr. right. unfold len. cbn. lia.
Defined.

(** ** [log_likelihood] on arbitrary series and survivors *)

(** X12: for alpha, beta > 0 [log_likelihood] does not validate the
    series.  On an empty series it raises [IndexError].  On every
    non-empty series, whatever its values, also a single observation, it
    evaluates the sum of rate[t] * log(p[t]) plus data[-1] * log(s) on
    p = [generate_probabilities alpha beta n] and s = [survivor p (n-1)],
    with [math.log] raising [ValueError] outside its domain. *)
Theorem log_likelihood_any_series (alpha beta : R) (data : list R) :
  0 < alpha -> 0 < beta ->
  (data = [] -> log_likelihood alpha beta data None = Raise IndexError) /\
  (data <> [] ->
     exists p s,
       generate_probabilities alpha beta (len data) = Ok p /\
       survivor p (len data - 1) = Ok s /\
       log_likelihood alpha beta data None
       = single_cohort_value (map (rate data) (seq 0 (length data))) p
           (nth (length data - 1) data 0) s).
Proof.
  intros Ha Hb. split.
  - intros E. subst data.
    rewrite <- (log_likelihood_precomputed alpha beta [] [])
      by apply survivor_rates_Ok.
    apply log_likelihood_index_error; [assumption | assumption |].
    left. reflexivity.
  - intros Hne.
    assert (Hn : (1 <= length data)%nat).
    { destruct data; [contradiction | cbn; lia]. }
    exists (churn_seq alpha beta (length data)),
           (surv alpha beta (length data - 1)).
    split.
    { rewrite generate_probabilities_Ok by assumption.
      replace (Z.to_nat (Z.max (len data) 1)) with (length data)
        by (unfold len; lia).
      reflexivity. }
    split.
    { replace (len data - 1)%Z with (Z.of_nat (length data - 1))
        by (unfold len; lia).
      apply survivor_churn_seq. lia. }
    rewrite <- (log_likelihood_precomputed _ _ _ _ (survivor_rates_Ok data)).
    apply log_likelihood_value; try assumption.
    rewrite length_map, length_seq. lia.
Qed.

Lemma log_likelihood_any_series_witness :
  log_likelihood 1 1 [] None = Raise IndexError /\
  exists p s,
    generate_probabilities 1 1 (len [3]) = Ok p /\
    survivor p (len [3] - 1) = Ok s /\
    log_likelihood 1 1 [3] None
    = single_cohort_value (map (rate [3]) (seq 0 (length [3]))) p
        (nth (length [3] - 1) [3] 0) s.
Proof.
  destruct (log_likelihood_any_series 1 1 []) as [Hempty _]; [lra | lra |].
  destruct (log_likelihood_any_series 1 1 [3]) as [_ Hone]; [lra | lra |].
  split.
  - apply Hempty. reflexivity.
  - apply Hone. discriminate.
Defined.

(** X13: for alpha, beta > 0 [log_likelihood] uses explicit survivors as
    they are.  With a non-empty series and at most as many survivors as
    observations it evaluates the sum over the survivors of
    survivors[t] * log(p[t]) plus data[-1] * log(s), on the p and s it
    computes.  With an empty series, or more survivors than observations,
    it raises [IndexError], provided every p[t] is positive, so that no
    logarithm fails first. *)
Theorem log_likelihood_explicit_survivors
    (alpha beta : R) (data survivors : list R) :
  0 < alpha -> 0 < beta ->
  exists p,
    generate_probabilities alpha beta (len data) = Ok p /\
    (data <> [] -> (length survivors <= length data)%nat ->
       exists s,
         survivor p (len data - 1) = Ok s /\
         log_likelihood alpha beta data (Some survivors)
         = single_cohort_value survivors p (nth (length data - 1) data 0) s) /\
    (data = [] \/ (length data < length survivors)%nat ->
     (forall v, In v p -> 0 < v) ->
     log_likelihood alpha beta data (Some survivors) = Raise IndexError).
Proof.
  intros Ha Hb. eexists.
  split; [apply generate_probabilities_Ok; assumption |]. split.
  - intros Hne Hlen.
    assert (Hn : (1 <= length data)%nat).
    { destruct data; [contradiction | cbn; lia]. }
    replace (Z.to_nat (Z.max (len data) 1)) with (length data)
      by (unfold len; lia).
    exists (surv alpha beta (length data - 1)). split.
    + replace (len data - 1)%Z with (Z.of_nat (length data - 1))
        by (unfold len; lia).
      apply survivor_churn_seq. lia.
    + apply log_likelihood_value; assumption.
  - intros Hbad _. apply log_likelihood_index_error; assumption.
Qed.

Lemma log_likelihood_explicit_survivors_witness :
  exists p,
    generate_probabilities 1 1 (len [1 / 2; 1 / 4]) = Ok p /\
    (exists s,
       survivor p (len [1 / 2; 1 / 4] - 1) = Ok s /\
       log_likelihood 1 1 [1 / 2; 1 / 4] (Some [1])
       = single_cohort_value [1] p
           (nth (length [1 / 2; 1 / 4] - 1) [1 / 2; 1 / 4] 0) s) /\
    ((forall v, In v p -> 0 < v) ->
     log_likelihood 1 1 [1 / 2; 1 / 4] (Some [1; 1; 1]) = Raise IndexError).
Proof.
  destruct (log_likelihood_explicit_survivors 1 1 [1 / 2; 1 / 4] [1])
    as [p [Hp [Hok _]]]; [lra | lra |].
  destruct (log_likelihood_explicit_survivors 1 1 [1 / 2; 1 / 4] [1; 1; 1])
    as [q [Hq [_ Herr]]]; [lra | lra |].
  assert (E : q = p) by congruence. subst q.
  exists p. split; [exact Hp |]. split.
  - apply Hok; [discriminate | cbn; lia].
  - apply Herr. right. cbn. lia.
Defined.

(** ** [log_likelihood_multi_cohort] on arbitrary datasets *)

(** X15: for alpha, beta > 0 the shape of the dataset decides whether
    [log_likelihood_multi_cohort] raises [IndexError].  On the empty
    dataset it does.  On a dataset whose cohorts have at least one and at
    most len(data[0]) + 1 observations, with at most len(data[0])
    cohorts, it does not.  On every other dataset it does, provided every
    value of the sequence p it computes and every survivor value of p are
    positive, so that no logarithm fails first. *)
Theorem log_likelihood_multi_cohort_defined
    (alpha beta : R) (data : list (list R)) :
  0 < alpha -> 0 < beta ->
  (data = [] ->
     log_likelihood_multi_cohort alpha beta data = Raise IndexError) /\
  (forall first rest, data = first :: rest ->
     exists p,
       generate_probabilities alpha beta (len first) = Ok p /\
       (Forall (fun cohort => (1 <= length cohort <= length first + 1)%nat)
               data ->
        (length data <= length first)%nat ->
        log_likelihood_multi_cohort alpha beta data <> Raise IndexError) /\
       (~ (Forall (fun cohort => (1 <= length cohort <= length first + 1)%nat)
                  data /\
           (length data <= length first)%nat) ->
        (forall v, In v p -> 0 < v) ->
        (forall t, (t < length p)%nat -> 0 < running_survivor p t) ->
        log_likelihood_multi_cohort alpha beta data = Raise IndexError)).
Proof.
  intros Ha Hb. split.
  - intros E. subst data.
    apply log_likelihood_multi_cohort_bad_shape; try assumption.
    intros first rest E. discriminate E.
  - intros first rest E. subst data. eexists.
    split; [apply generate_probabilities_Ok; assumption |]. split.
    + intros Hall Hcount. rewrite Forall_forall in Hall.
      rewrite log_likelihood_multi_cohort_Ok by assumption. discriminate.
    + intros Hshape _ _.
      apply log_likelihood_multi_cohort_bad_shape; try assumption.
      intros first' rest' E. injection E as E1 E2. subst first' rest'.
      exact Hshape.
Qed.

Lemma log_likelihood_multi_cohort_defined_witness :
  log_likelihood_multi_cohort 1 1 [] = Raise IndexError /\
  exists p,
    generate_probabilities 1 1 (len [5; 4]) = Ok p /\
    log_likelihood_multi_cohort 1 1 [[5; 4]] <> Raise IndexError.
Proof.
  destruct (log_likelihood_multi_cohort_defined 1 1 []) as [Hempty _];
    [lra | lra |].
  destruct (log_likelihood_multi_cohort_defined 1 1 [[5; 4]]) as [_ Hshape];
    [lra | lra |].
  destruct (Hshape [5; 4] [] eq_refl) as [p [Hp [Hok _]]].
  split; [apply Hempty; reflexivity |].
  exists p. split; [exact Hp |].
  apply Hok; [| cbn; lia]. repeat constructor; cbn; lia.
Defined.

(** ** The objectives handed to the optimizer *)

Lemma guard_blocks (a b : R) : a <= 0 \/ b <= 0 -> Rleb a 0 || Rleb b 0 = true.
Proof.
  intros [H | H].
  - rewrite (Rleb_true _ _ H). reflexivity.
  - rewrite (Rleb_true _ _ H). apply orb_true_r.
Qed.

(** X18: [maximize] raises nothing before it calls the optimizer, and
    calls it with the initial guess (100, 100), the method nelder-mead and
    xtol 1e-8.  The objective it hands over is minus
    [log_likelihood(x[0], x[1], data)] at every point: computing the
    survivor rates beforehand changes nothing.  It is 1000 wherever
    x[0] <= 0 or x[1] <= 0; in the positive quadrant it raises
    [IndexError] on an empty series, and on a non-empty series it is minus
    the value of the log-likelihood expression on the p and s computed at
    that point. *)
Theorem maximize_objective
    (minimize : (R * R -> result R) -> R * R -> String.string -> R ->
                result OptimizeResult.t)
    (data : list R) :
  exists survivors,
    maximize minimize data
    = minimize (maximize_func data survivors) (100, 100)
               "nelder-mead"%string 1e-8 /\
    (forall x,
       maximize_func data survivors x
       = (l <- log_likelihood (fst x) (snd x) data None ;; Ok (- l))) /\
    (forall x, fst x <= 0 \/ snd x <= 0 ->
       maximize_func data survivors x = Ok 1000) /\
    (forall x, 0 < fst x -> 0 < snd x -> data = [] ->
       maximize_func data survivors x = Raise IndexError) /\
    (forall x, 0 < fst x -> 0 < snd x -> data <> [] ->
       exists p s,
         generate_probabilities (fst x) (snd x) (len data) = Ok p /\
         survivor p (len data - 1) = Ok s /\
         maximize_func data survivors x
         = (v <- single_cohort_value survivors p
                   (nth (length data - 1) data 0) s ;;
            Ok (- v))).
Proof.
  exists (map (rate data) (seq 0 (length data))).
  assert (Hr : survivor_rates data
               = Ok (map (rate data) (seq 0 (length data))))
    by apply survivor_rates_Ok.
  split; [| split; [| split; [| split]]].
  - unfold maximize. rewrite Hr. reflexivity.
  - intros x. unfold maximize_func.
    rewrite (log_likelihood_precomputed _ _ _ _ Hr). reflexivity.
  - intros x Hx. unfold maximize_func, log_likelihood.
    rewrite (guard_blocks _ _ Hx). cbn [bind]. f_equal. lra.
  - intros x H0 H1 E. unfold maximize_func.
    rewrite log_likelihood_index_error; [reflexivity | assumption .. |].
    left. exact E.
  - intros x H0 H1 Hne.
    assert (Hn : (1 <= length data)%nat).
    { destruct data; [contradiction | cbn; lia]. }
    exists (churn_seq (fst x) (snd x) (length data)),
           (surv (fst x) (snd x) (length data - 1)).
    split.
    { rewrite generate_probabilities_Ok by assumption.
      replace (Z.to_nat (Z.max (len data) 1)) with (length data)
        by (unfold len; lia).
      reflexivity. }
    split.
    { replace (len data - 1)%Z with (Z.of_nat (length data - 1))
        by (unfold len; lia).
      apply survivor_churn_seq. lia. }
    unfold maximize_func. rewrite log_likelihood_value; try assumption.
    + reflexivity.
    + rewrite length_map, length_seq. lia.
Qed.

Lemma maximize_objective_witness :
  exists survivors,
    maximize (fun f x0 _ _ => v <- f x0 ;;
                Ok {| OptimizeResult.x := x0;
                      OptimizeResult.status := 0;
                      OptimizeResult.message :=
                        "Optimization terminated successfully."%string |})
             [1 / 2; 1 / 4]
    = (v <- maximize_func [1 / 2; 1 / 4] survivors (100, 100) ;;
       Ok {| OptimizeResult.x := (100, 100);
             OptimizeResult.status := 0;
             OptimizeResult.message :=
               "Optimization terminated successfully."%string |}) /\
    maximize_func [1 / 2; 1 / 4] survivors (0, 1) = Ok 1000 /\
    maximize_func [1 / 2; 1 / 4] survivors (1, 1)
    = (l <- log_likelihood 1 1 [1 / 2; 1 / 4] None ;; Ok (- l)).
Proof.
  destruct (maximize_objective
              (fun f x0 _ _ => v <- f x0 ;;
                 Ok {| OptimizeResult.x := x0;
                       OptimizeResult.status := 0;
                       OptimizeResult.message :=
                         "Optimization terminated successfully."%string |})
              [1 / 2; 1 / 4]) as [survivors [H1 [H2 [H3 _]]]].
  exists survivors. split; [exact H1 |]. split.
  - apply (H3 (0, 1)). left. cbn. lra.
  - apply (H2 (1, 1)).
Defined.

(** X19: [maximize_multi_cohort] calls the optimizer with the initial
    guess (1, 1), the method nelder-mead and xtol 1e-8.  The objective it
    hands over is 1000 wherever x[0] <= 0 or x[1] <= 0; in the positive
    quadrant it raises [IndexError] on the empty dataset, and on a dataset
    of the accepted shape it is minus the value of the multi-cohort
    expression on the sequence p computed at that point. *)
Theorem maximize_multi_cohort_objective
    (minimize : (R * R -> result R) -> R * R -> String.string -> R ->
                result OptimizeResult.t)
    (data : list (list R)) :
  maximize_multi_cohort minimize data
  = minimize (maximize_multi_cohort_func data) (1, 1)
             "nelder-mead"%string 1e-8 /\
  (forall x, fst x <= 0 \/ snd x <= 0 ->
     maximize_multi_cohort_func data x = Ok 1000) /\
  (forall x, 0 < fst x -> 0 < snd x -> data = [] ->
     maximize_multi_cohort_func data x = Raise IndexError) /\
  (forall x first rest, 0 < fst x -> 0 < snd x ->
     data = first :: rest ->
     Forall (fun cohort => (1 <= length cohort <= length first + 1)%nat)
            data ->
     (length data <= length first)%nat ->
     exists p,
       generate_probabilities (fst x) (snd x) (len first) = Ok p /\
       maximize_multi_cohort_func data x
       = (v <- cohorts_value p (length data) 0 data 0 ;; Ok (- v))).
Proof.
  split; [reflexivity |]. split; [| split].
  - intros x Hx. unfold maximize_multi_cohort_func, log_likelihood_multi_cohort.
    rewrite (guard_blocks _ _ Hx). cbn [bind]. f_equal. lra.
  - intros x H0 H1 E. subst data. unfold maximize_multi_cohort_func.
    rewrite log_likelihood_multi_cohort_bad_shape; [reflexivity | assumption .. |].
    intros first rest E. discriminate E.
  - intros x first rest H0 H1 E Hall Hcount. subst data.
    rewrite Forall_forall in Hall.
    assert (Hfirst : (1 <= length first)%nat).
    { apply (Hall first). left. reflexivity. }
    exists (churn_seq (fst x) (snd x) (length first)). split.
    { rewrite generate_probabilities_Ok by assumption.
      replace (Z.to_nat (Z.max (len first) 1)) with (length first)
        by (unfold len; lia).
      reflexivity. }
    unfold maximize_multi_cohort_func.
    rewrite log_likelihood_multi_cohort_value by assumption. reflexivity.
Qed.

Lemma maximize_multi_cohort_objective_witness :
  maximize_multi_cohort_func [[5; 4; 3]; [5; 4]] (0, 1) = Ok 1000 /\
  maximize_multi_cohort_func [] (1, 1) = Raise IndexError /\
  exists p,
    generate_probabilities 1 1 (len [5; 4; 3]) = Ok p /\
    maximize_multi_cohort_func [[5; 4; 3]; [5; 4]] (1, 1)
    = (v <- cohorts_value p (length [[5; 4; 3]; [5; 4]]) 0
              [[5; 4; 3]; [5; 4]] 0 ;;
       Ok (- v)).
Proof.
  destruct (maximize_multi_cohort_objective
              (fun _ _ _ _ => Raise ValueError) [[5; 4; 3]; [5; 4]])
    as [_ [H2 [_ H4]]].
  destruct (maximize_multi_cohort_objective
              (fun _ _ _ _ => Raise ValueError) [])
    as [_ [_ [H3 _]]].
  split; [| split].
  - apply (H2 (0, 1)). left. cbn. lra.
  - apply (H3 (1, 1)); cbn [fst snd]; [lra | lra | reflexivity].
  - apply (H4 (1, 1) [5; 4; 3] [[5; 4]]); cbn [fst snd];
      [lra | lra | reflexivity | | cbn; lia].
    repeat constructor; cbn; lia.
Defined.
